(** * lmdb.tool: the cdbmake codec of dump/restore and the sampler of watch

    A shallow embedding of [src/lmdb/tool.py] (Python 2: [str] is a byte
    string, [xrange], [iteritems]).  The functions embedded are
    [dump_cursor_to_fp], [restore_cursor_from_fp], [delta], the closure
    returned by [window], the body of the [cmd_watch] loop in terminal
    mode, [_get_term_width] and [_on_sigwinch]. *)

From Stdlib Require Import ZArith QArith List Lia Bool.
From Stdlib Require Import Strings.Byte Strings.String.
From Stdlib Require PrimFloat SpecFloat FloatOps.
From stdpp Require Import base list gmap.
From Equations Require Import Equations.
Import ListNotations.

#[local] Open Scope Z_scope.

(** ** Python values used by the tool *)

(** A Python 2 [str]: a sequence of 8-bit bytes. *)
Abbreviation bytes := (list byte).

#[global] Instance byte_eq_dec : EqDecision byte := Byte.byte_eq_dec.

(** [len(s)] as a Python integer. *)
Definition len {A} (s : list A) : Z := Z.of_nat (length s).

(** String literals of the source, as byte strings. *)
Definition lit (s : string) : bytes := list_byte_of_string s.

Module Py.

(** [isspace] and [isdigit] of the C locale, which Python 2 applies to the
    bytes of a [str]. *)
Definition isspace (b : byte) : bool :=
  let n := Z.of_N (Byte.to_N b) in
  ((9 <=? n) && (n <=? 13)) || (n =? 32).

Definition isdigit (b : byte) : bool :=
  let n := Z.of_N (Byte.to_N b) in
  (48 <=? n) && (n <=? 57).

Definition digit_val (b : byte) : Z := Z.of_N (Byte.to_N b) - 48.

(** The digit characters, indexed by their value. *)
Definition digit_table : bytes := Eval cbv in lit "0123456789".

Definition digit_byte (d : Z) : byte :=
  nth (Z.to_nat d) digit_table "0"%byte.

(** Skipping leading white space. *)
Fixpoint lstrip (s : bytes) : bytes :=
  match s with
  | b :: r => if isspace b then lstrip r else s
  | [] => []
  end.

(** The longest prefix of digits, and what follows it. *)
Fixpoint span_digits (s : bytes) : bytes * bytes :=
  match s with
  | b :: r =>
      if isdigit b
      then let '(ds, rest) := span_digits r in (b :: ds, rest)
      else ([], s)
  | [] => ([], [])
  end.

(** Value of a run of decimal digits, most significant first. *)
Definition horner (ds : bytes) : Z :=
  fold_left (fun acc b => 10 * acc + digit_val b) ds 0.

Definition split_sign (s : bytes) : Z * bytes :=
  match s with
  | b :: r =>
      if decide (b = "+"%byte) then (1, r)
      else if decide (b = "-"%byte) then (-1, r)
      else (1, s)
  | [] => (1, [])
  end.

(** [int(s, 10)] on a [str], as CPython 2.7 parses it
    ([PyInt_FromString] over [PyOS_strtol]): white space, an optional
    sign, white space, at least one decimal digit, white space, and
    nothing else.  [None] is [ValueError]. *)
Definition int10 (s : bytes) : option Z :=
  let '(sg, s1) := split_sign (lstrip s) in
  let '(ds, s2) := span_digits (lstrip s1) in
  match ds, lstrip s2 with
  | _ :: _, [] => Some (sg * horner ds)
  | _, _ => None
  end.

(** The digits of a non-negative integer, pushed in front of [acc]. *)
Equations? udigits (n : Z) (acc : bytes) : bytes by wf (Z.to_nat n) lt :=
  udigits n acc with decide (n < 10) := {
    | left _ := digit_byte n :: acc
    | right _ := udigits (n / 10) (digit_byte (n mod 10) :: acc) }.
Proof.
  apply Z2Nat.inj_lt; [apply Z.div_pos; lia | lia |].
  apply Z.div_lt; lia.
Qed.

(** ['%d' % n] for an integer [n]. *)
Definition fmt_d (n : Z) : bytes :=
  if n <? 0 then "-"%byte :: udigits (- n) [] else udigits n [].

(** The bytes a field that [int] accepts can hold. *)
Definition numeric_byte (b : byte) : Prop :=
  isdigit b = true \/ isspace b = true \/ b = "+"%byte \/ b = "-"%byte.

(** A run of decimal digits. *)
Definition all_digits (ds : bytes) : Prop :=
  Forall (fun b => isdigit b = true) ds.

(** [s.rjust(w)]: padded with spaces on the left up to [w] characters,
    unchanged when already that long. *)
Definition rjust (w : Z) (s : bytes) : bytes :=
  replicate (Z.to_nat (w - len s)) " "%byte ++ s.

End Py.

(** ** The cdbmake stream: [dump_cursor_to_fp] and [restore_cursor_from_fp] *)

Module Codec.

(** The literals of the format. *)
Definition NL : bytes := [x0a].
Definition PLUS : bytes := Eval cbv in lit "+".
Definition ARROW : bytes := Eval cbv in lit "->".
Definition COMMA : byte := ","%byte.
Definition COLON : byte := ":"%byte.

(** A record as the cursor yields it and as [txn.put] receives it. *)
Definition record : Type := bytes * bytes.

(** [fp.write(s)] on the output file: the bytes are appended. *)
Definition write (s : bytes) (out : bytes) : bytes := out ++ s.

(** ['+%d,%d:' % (a, b)] *)
Definition fmt_header (a b : Z) : bytes :=
  PLUS ++ Py.fmt_d a ++ [COMMA] ++ Py.fmt_d b ++ [COLON].

(** The body of the [for] loop of [dump_cursor_to_fp]: the five writes for
    one record. *)
Definition dump_record (out : bytes) (r : record) : bytes :=
  let '(key, value) := r in
  let out := write (fmt_header (len key) (len value)) out in
  let out := write key out in
  let out := write ARROW out in
  let out := write value out in
  write NL out.

(** [dump_cursor_to_fp(cursor, fp)]: [cursor] is the sequence of pairs the
    iteration yields, [out] what the file holds already. *)
Definition dump_cursor_to_fp (cursor : list record) (out : bytes) : bytes :=
  write NL (fold_left dump_record cursor out).

(** The exceptions of the reader: [ValueError] of [int], and what [die]
    raises.  [die(fmt, rec_nr)] writes the formatted line to [sys.stderr]
    and raises [SystemExit(1)]; [Died] keeps its two arguments. *)
Inductive exn : Type :=
| ValueError
| Died (fmt : string) (rec_nr : Z).

(** The formats of the five calls of [die] in [restore_cursor_from_fp]. *)
Definition bad_plus : string := "bad or missing plus, line/record #%d".
Definition bad_length : string := "bad or missing length, line/record #%d".
Definition bad_separator : string :=
  "bad or missing separator, line/record #%d".
Definition short_record : string := "short key or data, line/record #%d".
Definition bad_line_ending : string := "bad line ending, line/record #%d".

Inductive flow : Type := Break | Continue.

Section Reader.

(** The write transaction is the collaborator: [put key data t] is the
    transaction after [txn.put(key, data, db=db)], taken to return
    normally. *)
Context {Txn : Type}.
Variable put : bytes -> bytes -> Txn -> Txn.

(** What the function reads and changes: the unread rest of the input file
    and the transaction. *)
Record world : Type := World { fp : bytes; txn : Txn }.

(** Outcome of a computation: a value, an exception, or no return at all;
    each with the world as it is left. *)
Inductive res (A : Type) : Type :=
| Ok (a : A) (w : world)
| Raise (e : exn) (w : world)
| Diverge (w : world).
Arguments Ok {A} a w.
Arguments Raise {A} e w.
Arguments Diverge {A} w.

Definition M (A : Type) : Type := world -> res A.

Definition ret {A} (a : A) : M A := fun w => Ok a w.

Definition bind {A B} (m : M A) (k : A -> M B) : M B := fun w =>
  match m w with
  | Ok a w' => k a w'
  | Raise e w' => Raise e w'
  | Diverge w' => Diverge w'
  end.

Notation "x <- m ;; k" := (bind m (fun x => k))
  (at level 100, m at next level, right associativity).
Notation "m ;; k" := (bind m (fun _ => k))
  (at level 100, right associativity).

(** [die(fmt, rec_nr)] *)
Definition die {A} (fmt : string) (rec_nr : Z) : M A :=
  fun w => Raise (Died fmt rec_nr) w.

(** [try: m except ValueError: handler] *)
Definition try_ValueError {A} (m handler : M A) : M A := fun w =>
  match m w with
  | Raise ValueError w' => handler w'
  | r => r
  end.

(** [fp.read(n)]: at most [n] bytes, all that is left when [n] is
    negative.  The file is read without the limits of the machine: a
    request is never too large for a C integer or for memory. *)
Definition read (n : Z) : M bytes := fun w =>
  if n <? 0 then Ok (fp w) (World [] (txn w))
  else Ok (take (Z.to_nat n) (fp w))
          (World (drop (Z.to_nat n) (fp w)) (txn w)).

(** [iter(read1, sep)] joined: the bytes before the first [sep], which is
    consumed.  At the end of the file [read(1)] returns the empty string
    for ever, which never equals [sep]: the iteration does not end. *)
Fixpoint scan_until (sep : byte) (s : bytes) : option (bytes * bytes) :=
  match s with
  | [] => None
  | b :: r =>
      if decide (b = sep) then Some ([], r)
      else match scan_until sep r with
           | Some (got, rest) => Some (b :: got, rest)
           | None => None
           end
  end.

Definition read_until (sep : byte) : M bytes := fun w =>
  match scan_until sep (fp w) with
  | Some (got, rest) => Ok got (World rest (txn w))
  | None => Diverge (World [] (txn w))
  end.

(** [int(s, 10)] *)
Definition int (s : bytes) : M Z := fun w =>
  match Py.int10 s with
  | Some z => Ok z w
  | None => Raise ValueError w
  end.

(** [txn.put(key, data, db=db)] *)
Definition txn_put (key data : bytes) : M unit := fun w =>
  Ok tt (World (fp w) (put key data (txn w))).

(** One turn of the [while True] loop, [rec_nr] already incremented. *)
Definition iteration (rec_nr : Z) : M flow :=
  plus <- read 1 ;;
  if decide (plus = NL) then ret Break
  else if decide (plus <> PLUS) then die bad_plus rec_nr
  else
    lens <- try_ValueError
              (ks <- read_until COMMA ;;
               klen <- int ks ;;
               ds <- read_until COLON ;;
               dlen <- int ds ;;
               ret (klen, dlen))
              (die bad_length rec_nr) ;;
    let '(klen, dlen) := lens in
    key <- read klen ;;
    sep <- read 2 ;;
    if decide (sep <> ARROW) then die bad_separator rec_nr
    else
      data <- read dlen ;;
      if decide (len key + len data <> klen + dlen)
      then die short_record rec_nr
      else
        eol <- read 1 ;;
        if decide (eol <> NL) then die bad_line_ending rec_nr
        else txn_put key data ;; ret Continue.

(** *** Termination of the loop

    No operation gives bytes back to the file, and a turn that continues
    has read its ['+']: the unread input gets shorter at every turn. *)
Definition final {A} (r : res A) : world :=
  match r with Ok _ w | Raise _ w | Diverge w => w end.

Definition nogrow {A} (m : M A) : Prop :=
  forall w, (length (fp (final (m w))) <= length (fp w))%nat.

Lemma nogrow_ret {A} (a : A) : nogrow (ret a).
Proof. intros w. simpl. lia. Qed.

Lemma nogrow_die {A} fmt n : nogrow (@die A fmt n).
Proof. intros w. simpl. lia. Qed.

Lemma nogrow_bind {A B} (m : M A) (k : A -> M B) :
  nogrow m -> (forall a, nogrow (k a)) -> nogrow (bind m k).
Proof.
  intros Hm Hk w. unfold bind. specialize (Hm w).
  destruct (m w) as [a w1|e w1|w1]; simpl in *; try lia.
  specialize (Hk a w1). lia.
Qed.

Lemma nogrow_try {A} (m h : M A) :
  nogrow m -> nogrow h -> nogrow (try_ValueError m h).
Proof.
  intros Hm Hh w. unfold try_ValueError. specialize (Hm w).
  destruct (m w) as [a w1|[|f n] w1|w1]; simpl in *; try lia.
  specialize (Hh w1). lia.
Qed.

Lemma nogrow_read n : nogrow (read n).
Proof.
  intros w. unfold read. destruct (n <? 0); simpl; [lia|].
  rewrite length_drop. lia.
Qed.

Lemma scan_until_shorter sep s got rest :
  scan_until sep s = Some (got, rest) -> (length rest < length s)%nat.
Proof.
  revert got rest; induction s as [|b r IH]; intros got rest; simpl;
    [discriminate|].
  destruct (decide (b = sep)).
  - intros [= <- <-]. lia.
  - destruct (scan_until sep r) as [[g t]|]; [|discriminate].
    intros [= <- <-]. specialize (IH _ _ eq_refl). lia.
Qed.

Lemma nogrow_read_until sep : nogrow (read_until sep).
Proof.
  intros w. unfold read_until.
  destruct (scan_until sep (fp w)) as [[g r]|] eqn:E; simpl; [|lia].
  apply scan_until_shorter in E. lia.
Qed.

Lemma nogrow_int s : nogrow (int s).
Proof. intros w. unfold int. destruct (Py.int10 s); simpl; lia. Qed.

Lemma nogrow_txn_put k d : nogrow (txn_put k d).
Proof. intros w. simpl. lia. Qed.

Lemma nogrow_decide {A} (P : Prop) (d : Decision P) (m1 m2 : M A) :
  nogrow m1 -> nogrow m2 -> nogrow (if d then m1 else m2).
Proof. destruct d; auto. Qed.

Lemma iteration_consumes rec_nr w w' :
  iteration rec_nr w = Ok Continue w' -> (length (fp w') < length (fp w))%nat.
Proof.
  unfold iteration. unfold bind at 1.
  destruct w as [[|b s] t]; unfold read at 1; cbn [Z.ltb Z.compare fp txn];
    change (Z.to_nat 1) with 1%nat;
    [ change (take 1 (@nil byte)) with (@nil byte);
      change (drop 1 (@nil byte)) with (@nil byte)
    | change (take 1 (b :: s)) with [b]; change (drop 1 (b :: s)) with s ].
  - destruct (decide ([] = NL)); [discriminate|].
    destruct (decide ([] <> PLUS)) as [|N].
    + intros H. cbv beta delta [die] in H. discriminate H.
    + exfalso; apply N; discriminate.
  - destruct (decide ([b] = NL)).
    { intros H. cbv beta delta [ret] in H. discriminate H. }
    destruct (decide ([b] <> PLUS)).
    { intros H. cbv beta delta [die] in H. discriminate H. }
    intros H.
    match type of H with ?m ?w = _ =>
      assert (N : nogrow m);
      [| specialize (N w); rewrite H in N; simpl in N |- *; lia ]
    end.
    repeat first
      [ apply nogrow_bind; [|intros ?]
      | apply nogrow_try
      | apply nogrow_decide
      | apply nogrow_read | apply nogrow_read_until | apply nogrow_int
      | apply nogrow_txn_put | apply nogrow_ret | apply nogrow_die
      | match goal with
        | |- nogrow (let '(_, _) := ?p in _) => destruct p
        end ].
Qed.

(** [inspect a] keeps the equation between [a] and the case it is matched
    with, which the recursive call of the loop needs. *)
Definition inspect {A} (a : A) : {b : A | a = b} := exist _ a eq_refl.

(** The [while True] loop.  [rec_nr] is the counter before [rec_nr += 1];
    the value returned is the counter at [break]. *)
Equations? restore_loop (rec_nr : Z) (w : world) : res Z
  by wf (length (fp w)) lt :=
restore_loop rec_nr w with inspect (iteration (rec_nr + 1) w) := {
  | exist _ (Ok Continue w') _ := restore_loop (rec_nr + 1) w'
  | exist _ (Ok Break w') _ := Ok (rec_nr + 1) w'
  | exist _ (Raise e w') _ := Raise e w'
  | exist _ (Diverge w') _ := Diverge w' }.
Proof. eapply iteration_consumes; eassumption. Qed.

(** [quiet ve n m]: [m] never touches the transaction, and raises nothing
    but [die] with the counter [n], or [ValueError] where [ve] allows. *)
Definition quiet {A} (ve : bool) (n : Z) (m : M A) : Prop :=
  forall w : world,
    txn (final (m w)) = txn w
    /\ forall e w', m w = Raise e w' ->
         (ve = true /\ e = ValueError) \/ exists fmt, e = Died fmt n.


(** [restore_cursor_from_fp(txn, fp, db)] *)
Definition restore_cursor_from_fp (t : Txn) (input : bytes) : res Z :=
  restore_loop 0 (World input t).

Lemma restore_loop_step rec_nr w :
  restore_loop rec_nr w =
  match iteration (rec_nr + 1) w with
  | Ok Continue w' => restore_loop (rec_nr + 1) w'
  | Ok Break w' => Ok (rec_nr + 1) w'
  | Raise e w' => Raise e w'
  | Diverge w' => Diverge w'
  end.
Proof.
  funelim (restore_loop rec_nr w);
    match goal with e : iteration _ _ = _ |- _ => rewrite e end; reflexivity.
Qed.

End Reader.

Arguments Ok {Txn A} a w.
Arguments Raise {Txn A} e w.
Arguments Diverge {Txn A} w.

(** The input holds at [s] a frame that the loop accepts as the record
    [r], and goes on with [s']: the lengths are fields that [int] reads as
    the lengths of the key and of the value, each closed by its
    delimiter. *)
Definition framed (s : bytes) (r : record) (s' : bytes) : Prop :=
  exists ks ds : bytes,
    s = PLUS ++ ks ++ [COMMA] ++ ds ++ [COLON]
        ++ r.1 ++ ARROW ++ r.2 ++ NL ++ s'
    /\ ~ In COMMA ks /\ ~ In COLON ds
    /\ Py.int10 ks = Some (len r.1) /\ Py.int10 ds = Some (len r.2).

(** [framing s recs s']: [s] starts with accepted frames of the records
    [recs], in this order, and [s'] is what follows them. *)
Inductive framing : bytes -> list record -> bytes -> Prop :=
| framing_nil s : framing s [] s
| framing_cons s r s1 recs s' :
    framed s r s1 -> framing s1 recs s' -> framing s (r :: recs) s'.

(** The transaction after the records of [recs] were put, in order. *)
Definition put_all {Txn} (put : bytes -> bytes -> Txn -> Txn)
  (recs : list record) (t : Txn) : Txn :=
  fold_left (fun t r => put r.1 r.2 t) recs t.

(** A sink that keeps what it is given: the transaction is the list of
    the records put so far. *)
Definition log_put (key data : bytes) (t : list record) : list record :=
  t ++ [(key, data)].

End Codec.

(** ** The sampler and the renderer of [cmd_watch] *)

Module Watch.

#[local] Open Scope Q_scope.

(** [sum(l)]: from [0], adding from the left. *)
Definition sum (l : list Q) : Q := fold_left Qplus l 0.

(** [delta(hst)].  [hst[i]] is read with a default that is never used:
    the indices of [xrange(1, len(hst))] and their predecessors are in
    range. *)
Definition delta (hst : list Q) : list Q :=
  map (fun i => nth i hst 0 - nth (i - 1) hst 0)
      (seq 1 (length hst - 1)).

(** The options [cmd_watch] reads. *)
Record opts : Type := Opts { window : Z; interval : Z }.

(** What a call of the sampler gives: a number, or the exception of the
    division by [opts.interval] when that is zero. *)
Inductive rate : Type :=
| Return (q : Q)
| ZeroDivisionError.

(** The closure [windowfunc] that [window(func)] returns.  [history] is the
    deque it has captured, [sample] the value of its call of [func()]; the
    deque after the call is returned with the result.  Numbers are exact
    rationals: the integer counters as they are, and Python's float
    quotients without their rounding. *)
Definition windowfunc (o : opts) (sample : Q) (history : list Q)
  : list Q * rate :=
  let history := history ++ [sample] in
  let history :=
    if decide (len history > window o)%Z then tail history else history in
  if decide (len history <= 1)%Z then (history, Return 0)
  else
    let n := sum (delta history) / inject_Z (len history - 1) in
    if decide (interval o = 0%Z) then (history, ZeroDivisionError)
    else (history, Return (n / inject_Z (interval o))).

(** Successive calls of one sampler, [func()] returning the elements of
    [samples] in turn: the deque at the end and the results in order. *)
Fixpoint ticks (o : opts) (samples : list Q) (history : list Q)
  : list Q * list rate :=
  match samples with
  | [] => (history, [])
  | x :: rest =>
      let '(history, r) := windowfunc o x history in
      let '(history, rs) := ticks o rest history in
      (history, r :: rs)
  end.

(** The rate as the specification words it: the consecutive differences
    of the retained history, their arithmetic mean, divided by the
    interval; [0] for a history of at most one entry. *)
Fixpoint differences (h : list Q) : list Q :=
  match h with
  | a :: (b :: _) as rest => (b - a) :: differences rest
  | _ => []
  end.

Definition mean (l : list Q) : Q := sum l / inject_Z (len l).

Definition spec_rate (interval : Z) (h : list Q) : Q :=
  if decide (len h <= 1)%Z then 0
  else mean (differences h) / inject_Z interval.

(** The last [w] entries of a sequence of samples. *)
Definition newest (w : Z) (samples : list Q) : list Q :=
  drop (length samples - Z.to_nat w) samples.

#[local] Open Scope Z_scope.

(** [enumerate(l)] *)
Definition enumerate {A} (l : list A) : list (nat * A) :=
  zip (seq 0 (length l)) l.

(** [widths[i]]; the default stands for [IndexError], which the loops
    below never meet ([widths] is as long as [cols]). *)
Definition at_ (ws : list Z) (i : nat) : Z := default 0 (ws !! i).

(** The first [for] loop of a turn, [val] being [fmt % func()] of the
    column: [widths[i] = max(widths[i], len(val))]. *)
Definition measure (vals : list bytes) (widths : list Z) : list Z :=
  fold_left (fun ws '(i, val) => <[i := Z.max (at_ ws i) (len val)]> ws)
            (enumerate vals) widths.

(** The cells a [for] loop writes: [s.rjust(widths[i] + 1)] for each. *)
Definition cells (widths : list Z) (texts : list bytes) : list bytes :=
  map (fun '(i, s) => Py.rjust (at_ widths i + 1) s) (enumerate texts).

(** A line on [sys.stdout]: the cells, then a newline. *)
Definition line (widths : list Z) (texts : list bytes) : bytes :=
  concat (cells widths texts) ++ Codec.NL.

(** The variables of the loop, and what a turn is given: the formatted
    values of the columns and the two globals as they are then. *)
Record loop_state : Type :=
  LoopState { widths : list Z; term_width : Z; cnt : Z }.

Record turn : Type :=
  Turn { vals : list bytes; TERM_WIDTH : Z; TERM_HEIGHT : Z }.

(** [term_width != _TERM_WIDTH or not (cnt % (_TERM_HEIGHT - 2))];
    [None] is the [ZeroDivisionError] of the modulo. *)
Definition header_due (st : loop_state) (t : turn) : option bool :=
  if decide (term_width st <> TERM_WIDTH t) then Some true
  else if decide (TERM_HEIGHT t - 2 = 0) then None
  else Some (bool_decide (cnt st mod (TERM_HEIGHT t - 2) = 0)).

(** One turn of the [while True] loop of [cmd_watch] without [--csv]:
    the state after it and what it wrote.  [heads] are the labels of
    [cols]. *)
Definition watch_turn (heads : list bytes) (st : loop_state) (t : turn)
  : option (loop_state * bytes) :=
  let ws := measure (vals t) (widths st) in
  match header_due st t with
  | None => None
  | Some true =>
      Some (LoopState ws (TERM_WIDTH t) (cnt st + 1),
            line ws heads ++ line ws (vals t))
  | Some false =>
      Some (LoopState ws (term_width st) (cnt st + 1), line ws (vals t))
  end.

(** The variables before the loop. *)
Definition watch_init (heads : list bytes) : loop_state :=
  LoopState (map len heads) 0 0.

(** The turns of a run, as far as they go. *)
Fixpoint watch_run (heads : list bytes) (st : loop_state) (ts : list turn)
  : option (loop_state * bytes) :=
  match ts with
  | [] => Some (st, [])
  | t :: rest =>
      match watch_turn heads st t with
      | None => None
      | Some (st', out) =>
          match watch_run heads st' rest with
          | None => None
          | Some (st'', out') => Some (st'', out ++ out')
          end
      end
  end.

(** The width the specification gives a column: the largest of the width
    of its label and of the widths of the values it has shown. *)
Definition column_width (head : bytes) (shown : list bytes) : Z :=
  fold_left Z.max (map len shown) (len head).

(** The values that column [i] has shown in the turns [ts]. *)
Definition column (i : nat) (ts : list turn) : list bytes :=
  map (fun t => nth i (vals t) []) ts.

End Watch.

(** ** The terminal size: [_get_term_width] and [_on_sigwinch] *)

Module Term.

(** The Python values these two functions handle. *)
Inductive value : Type :=
| Int (n : Z)
| Tuple (items : list Z).

Inductive exn : Type :=
| TypeError
| ValueError
| NameError.

(** [_get_term_width(default=80)].  [query] is the outcome of the [try]
    block: the pair [(height, width)] that [struct.unpack] gives for the
    answer of the [ioctl], or [None] when any of it raises. *)
Definition _get_term_width (query : option (Z * Z)) (default : Z) : value :=
  match query with
  | Some (height, width) => Tuple [width; height]
  | None => Int default
  end.

(** The two globals; [None] is a name that is not bound, as both are when
    the module is loaded. *)
Record globals : Type :=
  Globals { _TERM_WIDTH : option Z; _TERM_HEIGHT : option Z }.

Definition unbound : globals := Globals None None.

(** The assignment [a, b = v]: a sequence of two items is unpacked, one of
    another length is a [ValueError], an integer cannot be iterated. *)
Definition unpack2 (v : value) : (Z * Z) + exn :=
  match v with
  | Tuple [a; b] => inl (a, b)
  | Tuple _ => inr ValueError
  | Int _ => inr TypeError
  end.

(** [_on_sigwinch]: the globals after the call and the exception it
    raises, if any. *)
Definition _on_sigwinch (query : option (Z * Z)) (g : globals)
  : globals * option exn :=
  match unpack2 (_get_term_width query 80) with
  | inl (w, h) => (Globals (Some w) (Some h), None)
  | inr e => (g, Some e)
  end.

(** The read of [_TERM_WIDTH] in the loop of [cmd_watch]. *)
Definition read_TERM_WIDTH (g : globals) : Z + exn :=
  match _TERM_WIDTH g with
  | Some w => inl w
  | None => inr NameError
  end.

End Term.

(** ** The hex dump: [isprint] and [xxd] *)

Module Xxd.

(** [ord(c)] *)
Definition ord (c : byte) : Z := Z.of_N (Byte.to_N c).

(** [string.printable] of Python 2: the digits, the letters, the
    punctuation and the white space of ASCII. *)
Definition printable : bytes := Eval cbv in
  lit "0123456789"
  ++ lit "abcdefghijklmnopqrstuvwxyzABCDEFGHIJKLMNOPQRSTUVWXYZ"
  ++ lit "!" ++ [x22] ++ lit "#$%&'()*+,-./:;<=>?@[\]^_`{|}~"
  ++ [x09; x0a; x0b; x0c; x0d; x20].

(** [isprint(c)]: [c in string.printable and ord(c) > 16]. *)
Definition isprint (c : byte) : bool :=
  bool_decide (In c printable) && (16 <? ord c).

(** The hexadecimal digits, indexed by their value. *)
Definition hex_table : bytes := Eval cbv in lit "0123456789abcdef".

Definition hex_byte (d : Z) : byte :=
  nth (Z.to_nat d) hex_table "0"%byte.

(** The hexadecimal digits of a non-negative integer, in front of [acc]. *)
Equations? xdigits (n : Z) (acc : bytes) : bytes by wf (Z.to_nat n) lt :=
  xdigits n acc with decide (n < 16) := {
    | left _ := hex_byte n :: acc
    | right _ := xdigits (n / 16) (hex_byte (n mod 16) :: acc) }.
Proof.
  apply Z2Nat.inj_lt; [apply Z.div_pos; lia | lia |].
  apply Z.div_lt; lia.
Qed.

(** ['%0wx' % n] for [n >= 0]: the digits, with zeros in front up to [w]
    characters. *)
Definition fmt_0x (w : Z) (n : Z) : bytes :=
  let ds := xdigits n [] in
  replicate (Z.to_nat (w - len ds)) "0"%byte ++ ds.

Inductive exn : Type := UnboundLocalError.

(** The variables of [xxd]: the buffer [sio], the text column [pr] of the
    line in progress, and the loop variable [idx], which is not bound
    before the first turn.  ([pr] is not bound either before the turn of
    index 0 assigns it, and is not read before.) *)
Record vars : Type := Vars { sio : bytes; pr : bytes; idx : option Z }.

Definition spaces (n : Z) : bytes := replicate (Z.to_nat n) " "%byte.

(** The body of the [for] loop, for the index [i] and the character
    [ch]. *)
Definition body (v : vars) (ic : nat * byte) : vars :=
  let '(i, ch) := ic in
  let i := Z.of_nat i in
  let '(sio1, pr1) :=
    if decide (i mod 16 = 0) then
      let sio0 :=
        if decide (i <> 0)
        then sio v ++ lit "  " ++ pr v ++ Codec.NL
        else sio v in
      (sio0 ++ fmt_0x 7 i ++ lit ":", [])
    else (sio v, pr v) in
  let sio2 := if decide (i mod 2 = 0) then sio1 ++ lit " " else sio1 in
  let sio3 := sio2 ++ fmt_0x 2 (ord ch) in
  Vars sio3 (pr1 ++ [if isprint ch then ch else "."%byte]) (Some i).

(** [xxd(s)] *)
Definition xxd (s : bytes) : bytes + exn :=
  let v := fold_left body (Watch.enumerate s) (Vars [] [] None) in
  match idx v with
  | None => inr UnboundLocalError
  | Some i =>
      let sio1 :=
        if decide (i mod 16 <> 0) then
          let need := 15 - i mod 16 in
          sio v ++ spaces (2 * need) ++ spaces (need / 2)
                ++ lit "  " ++ pr v
        else sio v in
      inl (sio1 ++ Codec.NL)
  end.

(** A byte that a terminal shows in one column, or the newline. *)
Definition harmless (b : byte) : Prop := b = x0a \/ 32 <= ord b <= 126.

Definition plain (b : byte) : Prop := 32 <= ord b <= 126.

(** The number of newlines in a string. *)
Definition newlines (l : bytes) : Z := len (filter (fun b => b = x0a) l).

(** *** The layout of a dump, line by line *)

(** The text column of some bytes: the byte where [isprint] holds, a dot
    elsewhere. *)
Definition text (chunk : bytes) : bytes :=
  map (fun c => if isprint c then c else "."%byte) chunk.

(** The hex column of the bytes of a line from its position [j] on: two
    digits for each byte, a space in front of every even position. *)
Fixpoint hexcol (j : nat) (chunk : bytes) : bytes :=
  match chunk with
  | [] => []
  | c :: rest =>
      (if Nat.even j then lit " " else []) ++ fmt_0x 2 (ord c)
      ++ hexcol (S j) rest
  end.

(** [s.ljust(w)] *)
Definition ljust (w : Z) (s : bytes) : bytes := s ++ spaces (w - len s).

(** A line with its text column: the offset in seven digits, a colon,
    the hex column filled up to forty characters, two spaces, the text.
    The line of a lone byte ends after the hex column. *)
Definition row (off : Z) (chunk : bytes) : bytes :=
  fmt_0x 7 off ++ lit ":" ++ ljust 40 (hexcol 0 chunk) ++ lit "  "
  ++ text chunk ++ Codec.NL.

Definition lone_row (off : Z) (chunk : bytes) : bytes :=
  fmt_0x 7 off ++ lit ":" ++ hexcol 0 chunk ++ Codec.NL.

(** The lines of a string that is not empty, from the offset [off]:
    sixteen bytes to a line. *)
Equations? layout (off : Z) (s : bytes) : bytes by wf (length s) lt :=
  layout off s with decide (length s <= 16)%nat := {
    | left _ :=
        if decide (length s = 1%nat) then lone_row off s else row off s
    | right _ := row off (take 16 s) ++ layout (off + 16) (drop 16 s) }.
Proof. rewrite length_drop. lia. Qed.

(** *** The loop of [xxd] in parts *)

(** The loop over [s] with the indices from [off] on, and the variables
    after the whole loop. *)
Definition run (off : nat) (s : bytes) (v : vars) : vars :=
  fold_left body (zip (seq off (length s)) s) v.

Definition after (s : bytes) : vars :=
  fold_left body (Watch.enumerate s) (Vars [] [] None).

(** What follows the loop. *)
Definition finish (v : vars) : bytes + exn :=
  match idx v with
  | None => inr UnboundLocalError
  | Some i =>
      inl ((if decide (i mod 16 <> 0) then
              sio v ++ spaces (2 * (15 - i mod 16))
                    ++ spaces ((15 - i mod 16) / 2) ++ lit "  " ++ pr v
            else sio v) ++ Codec.NL)
  end.

(** The buffer once the line in progress is closed, as the turn of the
    index [off] does when [off] is not 0. *)
Definition closed (off : nat) (v : vars) : bytes :=
  if decide (Z.of_nat off <> 0)
  then sio v ++ lit "  " ++ pr v ++ Codec.NL else sio v.

End Xxd.

(** ** The commands *)

Module Tool.

(** Python's [str.partition(sep)] for a separator of one character: the
    part before the first [sep], the separator, the part after; the whole
    string and two empty strings when [sep] does not occur. *)
Fixpoint partition (sep : byte) (s : bytes) : bytes * bytes * bytes :=
  match s with
  | [] => ([], [], [])
  | b :: r =>
      if decide (b = sep) then ([], [sep], r)
      else let '(before, found, after) := partition sep r in
           (b :: before, found, after)
  end.

(** The messages of the calls of [die] outside the reader. *)
Definition missing_equals : bytes := Eval cbv in
  lit "DB specification missing " ++ [x22] ++ lit "=" ++ [x22] ++ lit ": %r".
Definition specified_twice : bytes := Eval cbv in lit "DB specified twice: %r".
Definition must_specify : bytes := Eval cbv in
  lit "Must specify at least one sub-database (see --help)".
Definition cannot_drop_main : bytes := Eval cbv in lit "Cannot drop main DB".
Definition please_command : bytes := Eval cbv in
  lit "Please specify a command (see --help)".
Definition please_environment : bytes := Eval cbv in
  lit "Please specify environment (--env)".
Definition no_such_command : bytes := Eval cbv in lit "No such command: %r".

(** The name of the main database on the command line. *)
Definition MAIN : bytes := Eval cbv in lit ":main:".

(** What the commands raise: [die(fmt, *args)] with its format and its
    argument, if it has one; the exceptions of [xxd] and of
    [_on_sigwinch]; the error of [lmdb.open]. *)
Inductive exn : Type :=
| Died (fmt : bytes) (arg : option bytes)
| XxdError (e : Xxd.exn)
| TermError (e : Term.exn)
| LmdbError.

#[global] Instance byte_countable : Countable byte :=
  inj_countable Byte.to_N Byte.of_N Byte.of_to_N.

#[global] Instance In_bytes_dec (b : byte) (l : bytes) : Decision (In b l) :=
  In_dec byte_eq_dec b l.
#[global] Instance In_arg_dec (a : bytes) (l : list bytes)
  : Decision (In a l) :=
  In_dec (list_eq_dec (dec := byte_eq_dec)) a l.

(** The name under which [db_map_from_args] keeps an argument
    [name=path], and its path. *)
Definition name_of (arg : bytes) : option bytes :=
  let name := (partition "="%byte arg).1.1 in
  if decide (name = MAIN) then None else Some name.

Definition path_of (arg : bytes) : bytes := (partition "="%byte arg).2.

(** The names in front of the first [name] of a list. *)
Fixpoint names_before (name : bytes) (l : list bytes) : list bytes :=
  match l with
  | [] => []
  | a :: rest => if decide (a = name) then [] else a :: names_before name rest
  end.

Section Commands.

(** The handles of databases, and [ENV.open_db(name)]: the handle it
    returns for a name, [None] being Python's [None], the main
    database. *)
Context {Db : Type}.
Variable open_db : option bytes -> Db.

(** *** [db_map_from_args] *)

(** The dictionary [db_map] and, in order, the names [ENV.open_db] was
    called with. *)
Record db_vars : Type :=
  DbVars { db_map : gmap (option bytes) (Db * bytes);
           opened : list (option bytes) }.

(** The body of the [for] loop, for the argument [arg]. *)
Definition db_map_body (v : db_vars) (arg : bytes) : db_vars + exn :=
  let '(dbname, sep, path) := partition "="%byte arg in
  if decide (sep = []) then inr (Died missing_equals (Some arg))
  else
    let dbname := if decide (dbname = MAIN) then None else Some dbname in
    if decide (is_Some (db_map v !! dbname))
    then inr (Died specified_twice (Some arg))
    else inl (DbVars (<[dbname := (open_db dbname, path)]> (db_map v))
                     (opened v ++ [dbname])).

Fixpoint db_map_loop (v : db_vars) (args : list bytes)
  : db_vars + exn * db_vars :=
  match args with
  | [] => inl v
  | arg :: rest =>
      match db_map_body v arg with
      | inl v' => db_map_loop v' rest
      | inr e => inr (e, v)
      end
  end.

(** [db_map_from_args(args)]: the dictionary returned, or the exception
    raised, each with the calls of [ENV.open_db] made. *)
Definition db_map_from_args (args : list bytes) : db_vars + exn * db_vars :=
  match db_map_loop (DbVars ∅ []) args with
  | inl v =>
      if decide (db_map v = ∅)
      then inl (DbVars
                  (<[Some MAIN := (open_db None, lit "main.cdbmake")]>
                     (db_map v))
                  (opened v ++ [None]))
      else inl v
  | inr e => inr e
  end.

(** The entry of the dictionary for an argument. *)
Definition entry_of (arg : bytes) : option bytes * (Db * bytes) :=
  (name_of arg, (open_db (name_of arg), path_of arg)).

(** *** [cmd_drop] *)

(** What [cmd_drop] does to the world, in order: a call of [ENV.open_db],
    a line printed for a name, a database dropped in a write transaction
    of its own ([with ENV.begin(write=True) as txn: txn.drop(db)]). *)
Inductive drop_event : Type :=
| Opened (name : bytes)
| Dropping (name : bytes)
| Dropped (db : Db).

(** The [for] loop over [enumerate(dbs)]; [args[idx]] is read with a
    default that is never used, [dbs] being as long as [args]. *)
Fixpoint drop_loop (args : list bytes) (l : list (nat * Db))
  : list drop_event * option exn :=
  match l with
  | [] => ([], None)
  | (idx, db) :: rest =>
      let name := nth idx args [] in
      if decide (name = MAIN) then ([], Some (Died cannot_drop_main None))
      else let '(evs, e) := drop_loop args rest in
           (Dropping name :: Dropped db :: evs, e)
  end.

(** [cmd_drop(opts, args)] *)
Definition cmd_drop (args : list bytes) : list drop_event * option exn :=
  if decide (args = []) then ([], Some (Died must_specify None))
  else
    let dbs := map (fun a => open_db (Some a)) args in
    let '(evs, e) := drop_loop args (Watch.enumerate dbs) in
    (map Opened args ++ evs, e).

End Commands.

(** *** [cmd_warm] *)

Definition bufsize : Z := 32768.

(** The loop [while fp.tell() < last_offset: fp.readinto(buf)] on a file
    of [size] bytes, from the position [pos]: the position at which it
    ends, or [None] when it does not end.  [readinto] reads what is left
    of the file, [bufsize] bytes at most; at the end of the file it reads
    nothing and the position stays. *)
Equations? warm_loop (size last_offset pos : Z) : option Z
  by wf (Z.to_nat (size - pos)) lt :=
  warm_loop size last_offset pos with decide (pos < last_offset) := {
    | right _ := Some pos
    | left _ with decide (pos < size) := {
      | left _ :=
          warm_loop size last_offset (pos + Z.min bufsize (size - pos))
      | right _ := None } }.
Proof. unfold bufsize. lia. Qed.

(** [cmd_warm(opts, args)], for the page size and the last page number of
    the environment and the size of its [data.mdb]: the number of bytes
    read when it returns. *)
Definition cmd_warm (psize last_pgno size : Z) : option Z :=
  warm_loop size (psize * last_pgno) 0.

(** *** [cmd_get] *)

(** What [cmd_get] prints: the line for a missing key, the header of a
    value, a value or its dump. *)
Inductive get_line : Type :=
| Missing (key : bytes)
| Header (key : bytes)
| Value (text : bytes).

(** The [for] loop of [cmd_get]; [get] is [txn.get]. *)
Fixpoint get_loop (xxd_option print_header : bool)
  (get : bytes -> option bytes) (args : list bytes)
  : list get_line * option exn :=
  match args with
  | [] => ([], None)
  | arg :: rest =>
      match get arg with
      | None =>
          let '(ls, e) := get_loop xxd_option print_header get rest in
          (Missing arg :: ls, e)
      | Some value =>
          let head := if print_header then [Header arg] else [] in
          if xxd_option then
            match Xxd.xxd value with
            | inr e => (head, Some (XxdError e))
            | inl dump =>
                let '(ls, e) := get_loop xxd_option print_header get rest in
                (head ++ Value dump :: ls, e)
            end
          else
            let '(ls, e) := get_loop xxd_option print_header get rest in
            (head ++ Value value :: ls, e)
      end
  end.

(** [cmd_get(opts, args)] *)
Definition cmd_get (xxd_option : bool) (get : bytes -> option bytes)
  (args : list bytes) : list get_line * option exn :=
  get_loop xxd_option (bool_decide (len args > 1)) get args.

(** A key of [args] holds the empty string. *)
Definition some_value_empty (get : bytes -> option bytes)
  (args : list bytes) : bool :=
  existsb (fun k => bool_decide (get k = Some [])) args.

End Tool.

(** ** [cmd_dump], [cmd_restore] and [main] *)

Module Backup.

(** What the two commands print. *)
Inductive report : Type :=
| Dumping (path : bytes)
| Restoring (path : bytes)
| Loaded (count : Z) (path : bytes).

(** What ends [cmd_restore] early: [open] on a path that is not a file,
    or an exception of [restore_cursor_from_fp]. *)
Inductive failure : Type :=
| IOError (path : bytes)
| Reader (e : Codec.exn).

Section Backup.

(** The environment: [cursor db] is what iterating [txn.cursor(db=db)]
    yields, [put db key data t] the transaction after
    [txn.put(key, data, db=db)]. *)
Context {Db Txn : Type}.
Variable cursor : Db -> list Codec.record.
Variable put : Db -> bytes -> bytes -> Txn -> Txn.

(** An item of [db_map.iteritems()]: a name with a handle and a path.
    The commands are given the items in the order the dictionary yields
    them, which is any order. *)
Definition item : Type := option bytes * (Db * bytes).

Definition path_of_item (it : item) : bytes := it.2.2.

(** The body of the loop of [cmd_dump] on the files, a map from paths to
    contents: [open(path, 'wb')], taken to succeed, makes the file empty,
    the cursor is dumped to it, and it is closed.  A file is named by
    the spelling of its path: two paths that differ are two files. *)
Definition dump_item (fs : gmap bytes bytes) (it : item) : gmap bytes bytes :=
  let '(_, (db, path)) := it in
  <[path := Codec.dump_cursor_to_fp (cursor db) []]> fs.

(** [cmd_dump(opts, args)], after [db_map_from_args]. *)
Definition cmd_dump (items : list item) (fs : gmap bytes bytes)
  : gmap bytes bytes * list report :=
  (fold_left dump_item items fs,
   map (fun it => Dumping (path_of_item it)) items).

(** How [cmd_restore] ends: it returns, it raises, or it never does;
    each with the transaction as it is then. *)
Inductive outcome : Type :=
| Done (t : Txn)
| Failed (e : failure) (t : Txn)
| Hung (t : Txn).

(** The loop of [cmd_restore]. *)
Fixpoint restore_items (items : list item) (fs : gmap bytes bytes) (t : Txn)
  : list report * outcome :=
  match items with
  | [] => ([], Done t)
  | (_, (db, path)) :: rest =>
      match fs !! path with
      | None => ([], Failed (IOError path) t)
      | Some content =>
          match Codec.restore_cursor_from_fp (put db) t content with
          | Codec.Ok count w =>
              let '(ls, o) := restore_items rest fs (Codec.txn w) in
              (Restoring path :: Loaded count path :: ls, o)
          | Codec.Raise e w =>
              ([Restoring path], Failed (Reader e) (Codec.txn w))
          | Codec.Diverge w => ([Restoring path], Hung (Codec.txn w))
          end
      end
  end.

(** [cmd_restore(opts, args)], after [db_map_from_args]. *)
Definition cmd_restore (items : list item) (fs : gmap bytes bytes) (t : Txn)
  : list report * outcome :=
  restore_items items fs t.

(** The transaction after the records of every item's database were put
    into it, item by item. *)
Definition put_items (items : list item) (t : Txn) : Txn :=
  fold_left (fun t it => Codec.put_all (put it.2.1) (cursor it.2.1) t)
            items t.

End Backup.

(** *** [main] *)

(** The two options [main] reads, and what it does before the command:
    [lmdb.open], [ENV.open_db], [signal.signal]; then the call of the
    command with the remaining arguments. *)
Record options : Type := Options { env : option bytes; db : option bytes }.

Inductive main_event : Type :=
| LmdbOpen (path : bytes)
| OpenDb (name : bytes)
| SignalHandler
| Run (command : bytes) (args : list bytes).

(** The names [x] for which [globals()] holds a function [cmd_x]. *)
Definition commands : list bytes := Eval cbv in
  map lit ["copy"; "copyfd"; "drop"; "dump"; "edit"; "get"; "restore";
           "rewrite"; "shell"; "stat"; "warm"; "watch"]%string.

(** The value of an option that is set and not the empty string. *)
Definition given (o : option bytes) : option bytes :=
  match o with
  | Some (b :: s) => Some (b :: s)
  | _ => None
  end.

(** [main()], for the arguments and options parsed.  [env_opens] and
    [db_opens] tell whether [lmdb.open] and [ENV.open_db] return, [query]
    is the outcome of the terminal query in [_get_term_width], [g] the
    two globals of the terminal size.  The result is what was done, the
    globals, and the exception raised by [main] itself, if any. *)
Definition main (args : list bytes) (o : options)
  (env_opens db_opens : bool) (query : option (Z * Z)) (g : Term.globals)
  : list main_event * Term.globals * option Tool.exn :=
  match args with
  | [] => ([], g, Some (Tool.Died Tool.please_command None))
  | command :: rest =>
      match given (env o) with
      | None => ([], g, Some (Tool.Died Tool.please_environment None))
      | Some path =>
          if negb env_opens then ([], g, Some Tool.LmdbError)
          else
            let opened :=
              match given (db o) with
              | Some name =>
                  if db_opens then inl [LmdbOpen path; OpenDb name]
                  else inr [LmdbOpen path]
              | None => inl [LmdbOpen path]
              end in
            match opened with
            | inr evs => (evs, g, Some Tool.LmdbError)
            | inl evs =>
                let before := evs ++ [SignalHandler] in
                match Term._on_sigwinch query g with
                | (g', Some e) => (before, g', Some (Tool.TermError e))
                | (g', None) =>
                    if decide (command ∈ commands)
                    then (before ++ [Run command rest], g', None)
                    else
                      (before, g',
                       Some (Tool.Died Tool.no_such_command (Some command)))
                end
            end
      end
  end.

End Backup.

(** ** The reader on a machine: the C long of [fp.read]

    [restore_cursor_from_fp] once more, with the limit of the machine
    that changes what it raises: [fp.read], the method of a file of
    Python 2, takes its count as a C long.  [Codec] has the same
    function without this limit. *)

Module Bounded.
Import Codec.

Section Bounded.

Context {Txn : Type}.
Variable put : bytes -> bytes -> Txn -> Txn.

(** The largest value of a C long: [2^63 - 1] where a long has 64 bits,
    [2^31 - 1] where it has 32. *)
Variable LONG_MAX : Z.

#[local] Abbreviation world := (@Codec.world Txn).

(** [fp.read(n)] takes its count as a C long; a count that is none makes
    it raise [OverflowError] before it reads.  (The memory is taken to
    hold what is asked for.) *)
Definition fits (n : Z) : bool := (- LONG_MAX - 1 <=? n) && (n <=? LONG_MAX).

(** How a computation ends: as in the reader without the bound, or with
    the [OverflowError] of [fp.read], each with the world as it is
    left. *)
Inductive ending (A : Type) : Type :=
| Ended (r : res (Txn := Txn) A)
| OverflowError (w : world).
Arguments Ended {A} r.
Arguments OverflowError {A} w.

Definition M (A : Type) : Type := world -> ending A.

(** A computation that does not call [fp.read]. *)
Definition lift {A} (m : Codec.M A) : M A := fun w => Ended (m w).

Definition ret {A} (a : A) : M A := lift (Codec.ret a).

Definition bind {A B} (m : M A) (k : A -> M B) : M B := fun w =>
  match m w with
  | Ended (Ok a w') => k a w'
  | Ended (Raise e w') => Ended (Raise e w')
  | Ended (Diverge w') => Ended (Diverge w')
  | OverflowError w' => OverflowError w'
  end.

Notation "x <- m ;; k" := (bind m (fun x => k))
  (at level 100, m at next level, right associativity).
Notation "m ;; k" := (bind m (fun _ => k))
  (at level 100, right associativity).

(** [die(fmt, rec_nr)] *)
Definition die {A} (fmt : string) (rec_nr : Z) : M A :=
  lift (Codec.die fmt rec_nr).

(** [try: m except ValueError: handler]: an [OverflowError] passes. *)
Definition try_ValueError {A} (m handler : M A) : M A := fun w =>
  match m w with
  | Ended (Raise ValueError w') => handler w'
  | r => r
  end.

(** [fp.read(n)] *)
Definition read (n : Z) : M bytes := fun w =>
  if fits n then Ended (Codec.read n w) else OverflowError w.

(** [iter(read1, sep)] joined, [read1] being [read(1)]. *)
Definition read_until (sep : byte) : M bytes := fun w =>
  if fits 1 then Ended (Codec.read_until sep w) else OverflowError w.

(** [int(s, 10)] *)
Definition int (s : bytes) : M Z := lift (Codec.int s).

(** [txn.put(key, data, db=db)] *)
Definition txn_put (key data : bytes) : M unit :=
  lift (Codec.txn_put put key data).

(** One turn of the [while True] loop, [rec_nr] already incremented. *)
Definition iteration (rec_nr : Z) : M flow :=
  plus <- read 1 ;;
  if decide (plus = NL) then ret Break
  else if decide (plus <> PLUS) then die bad_plus rec_nr
  else
    lens <- try_ValueError
              (ks <- read_until COMMA ;;
               klen <- int ks ;;
               ds <- read_until COLON ;;
               dlen <- int ds ;;
               ret (klen, dlen))
              (die bad_length rec_nr) ;;
    let '(klen, dlen) := lens in
    key <- read klen ;;
    sep <- read 2 ;;
    if decide (sep <> ARROW) then die bad_separator rec_nr
    else
      data <- read dlen ;;
      if decide (len key + len data <> klen + dlen)
      then die short_record rec_nr
      else
        eol <- read 1 ;;
        if decide (eol <> NL) then die bad_line_ending rec_nr
        else txn_put key data ;; ret Continue.

(** *** The two readers

    [agree m' m]: whenever [m'] ends without [OverflowError] it ends as
    [m], the same computation without the bound, does. *)
Definition agree {A} (m' : M A) (m : Codec.M A) : Prop :=
  forall (w : world) r, m' w = Ended r -> m w = r.

Lemma agree_lift {A} (m : Codec.M A) : agree (lift m) m.
Proof. intros w r [= <-]. reflexivity. Qed.

Lemma agree_read n : agree (read n) (Codec.read n).
Proof. intros w r. unfold read. destruct (fits n); congruence. Qed.

Lemma agree_read_until sep :
  agree (read_until sep) (Codec.read_until sep).
Proof. intros w r. unfold read_until. destruct (fits 1); congruence. Qed.

Lemma agree_bind {A B} (m' : M A) (m : Codec.M A)
  (k' : A -> M B) (k : A -> Codec.M B) :
  agree m' m -> (forall a, agree (k' a) (k a)) ->
  agree (bind m' k') (Codec.bind m k).
Proof.
  intros Hm Hk w r. unfold bind, Codec.bind.
  destruct (m' w) as [[a w1|e w1|w1]|w1] eqn:E; try discriminate;
    apply Hm in E; rewrite E.
  - apply Hk.
  - congruence.
  - congruence.
Qed.

Lemma agree_try {A} (m' h' : M A) (m h : Codec.M A) :
  agree m' m -> agree h' h ->
  agree (try_ValueError m' h') (Codec.try_ValueError m h).
Proof.
  intros Hm Hh w r. unfold try_ValueError, Codec.try_ValueError.
  destruct (m' w) as [[a w1|e w1|w1]|w1] eqn:E; cbv beta iota.
  - intros [= <-]. apply Hm in E. rewrite E. reflexivity.
  - apply Hm in E. rewrite E.
    destruct e; first [apply Hh | intros [= <-]; reflexivity].
  - intros [= <-]. apply Hm in E. rewrite E. reflexivity.
  - discriminate.
Qed.

Lemma agree_decide {A} (P : Prop) (d : Decision P)
  (m1' m2' : M A) (m1 m2 : Codec.M A) :
  agree m1' m1 -> agree m2' m2 ->
  agree (if d then m1' else m2') (if d then m1 else m2).
Proof. destruct d; auto. Qed.

Lemma agree_iteration rec_nr :
  agree (iteration rec_nr) (Codec.iteration put rec_nr).
Proof.
  unfold iteration, Codec.iteration.
  repeat first
    [ match goal with
      | |- agree (let '(_, _) := ?p in _) _ => destruct p
      end
    | apply agree_bind; [|intros ?]
    | apply agree_decide
    | apply agree_try
    | apply agree_read | apply agree_read_until | apply agree_lift ].
Qed.

Lemma turn_consumes rec_nr (w w' : world) :
  iteration rec_nr w = Ended (Ok Continue w') ->
  (length (fp w') < length (fp w))%nat.
Proof.
  intros E. apply agree_iteration in E.
  exact (Codec.iteration_consumes put _ _ _ E).
Qed.

(** The [while True] loop. *)
Equations? restore_loop (rec_nr : Z) (w : world) : ending Z
  by wf (length (fp w)) lt :=
restore_loop rec_nr w with inspect (iteration (rec_nr + 1) w) := {
  | exist _ (Ended (Ok Continue w')) _ := restore_loop (rec_nr + 1) w'
  | exist _ (Ended (Ok Break w')) _ := Ended (Ok (rec_nr + 1) w')
  | exist _ (Ended (Raise e w')) _ := Ended (Raise e w')
  | exist _ (Ended (Diverge w')) _ := Ended (Diverge w')
  | exist _ (OverflowError w') _ := OverflowError w' }.
Proof. eapply turn_consumes; eassumption. Qed.

(** [restore_cursor_from_fp(txn, fp, db)] *)
Definition restore_cursor_from_fp (t : Txn) (input : bytes) : ending Z :=
  restore_loop 0 (World input t).

Lemma restore_loop_turn rec_nr w :
  restore_loop rec_nr w =
  match iteration (rec_nr + 1) w with
  | Ended (Ok Continue w') => restore_loop (rec_nr + 1) w'
  | Ended (Ok Break w') => Ended (Ok (rec_nr + 1) w')
  | Ended (Raise e w') => Ended (Raise e w')
  | Ended (Diverge w') => Ended (Diverge w')
  | OverflowError w' => OverflowError w'
  end.
Proof.
  funelim (restore_loop rec_nr w);
    match goal with e : iteration _ _ = _ |- _ => rewrite e end; reflexivity.
Qed.

End Bounded.

Arguments Ended {Txn A} r.
Arguments OverflowError {Txn A} w.

End Bounded.

(** ** The sampler of [cmd_watch] in floating point

    [windowfunc] once more, in the arithmetic of Python 2, where a
    quotient by a float is a binary64.  [Watch] has the same function in
    exact rationals. *)

Module Sampler.
Import PrimFloat SpecFloat FloatOps.

(** A number of Python 2: an integer of any size ([int] or [long]), or a
    [float], which is a binary64 of the machine. *)
Inductive num : Type :=
| I (z : Z)
| F (f : float).

(** What the arithmetic of the sampler raises. *)
Inductive exn : Type :=
| OverflowError
| ZeroDivisionError.

(** A value, or the exception raised instead. *)
Definition result (A : Type) : Type := (A + exn)%type.

Definition ret {A} (a : A) : result A := inl a.

Definition bind {A B} (m : result A) (k : A -> result B) : result B :=
  match m with
  | inl a => k a
  | inr e => inr e
  end.

Notation "x <- m ;; k" := (bind m (fun x => k))
  (at level 100, m at next level, right associativity).

(** [float(z)], and the conversion of an integer operand that meets a
    float: the binary64 nearest to [z], the even one of two that are as
    near; [OverflowError] when that is not a finite number. *)
Definition float_of (z : Z) : result float :=
  let f := SF2Prim (binary_normalize prec emax z 0 false) in
  if is_infinity f then inr OverflowError else ret f.

Definition to_float (a : num) : result float :=
  match a with
  | I z => float_of z
  | F f => ret f
  end.

(** [a - b] and [a + b]: exact on two integers, in binary64 once an
    operand is a float, the left operand converted first. *)
Definition sub (a b : num) : result num :=
  match a, b with
  | I x, I y => ret (I (x - y))
  | _, _ => x <- to_float a ;; y <- to_float b ;; ret (F (x - y)%float)
  end.

Definition add (a b : num) : result num :=
  match a, b with
  | I x, I y => ret (I (x + y))
  | _, _ => x <- to_float a ;; y <- to_float b ;; ret (F (x + y)%float)
  end.

(** The division of two binary64: [ZeroDivisionError] on a zero of
    either sign. *)
Definition float_div (x y : float) : result float :=
  if is_zero y then inr ZeroDivisionError else ret (x / y)%float.

(** [a / b] without [from __future__ import division]: the floor of the
    quotient on two integers, the binary64 quotient once an operand is a
    float. *)
Definition div (a b : num) : result num :=
  match a, b with
  | I x, I y =>
      if decide (y = 0) then inr ZeroDivisionError else ret (I (x / y))
  | _, _ =>
      x <- to_float a ;; y <- to_float b ;;
      q <- float_div x y ;; ret (F q)
  end.

(** [sum(l)]: from the integer 0, adding from the left. *)
Fixpoint sum_from (acc : num) (l : list num) : result num :=
  match l with
  | [] => ret acc
  | x :: rest => acc' <- add acc x ;; sum_from acc' rest
  end.

Definition sum (l : list num) : result num := sum_from (I 0) l.

(** A list comprehension whose element may raise: the first exception
    ends it. *)
Fixpoint for_each {A B} (f : A -> result B) (l : list A) : result (list B) :=
  match l with
  | [] => ret []
  | a :: rest => b <- f a ;; bs <- for_each f rest ;; ret (b :: bs)
  end.

(** [delta(hst)].  [hst[i]] is read with a default that is never used:
    the indices of [xrange(1, len(hst))] and their predecessors are in
    range. *)
Definition delta (hst : list num) : result (list num) :=
  for_each (fun i => sub (nth i hst (I 0)) (nth (i - 1) hst (I 0)))
           (seq 1 (length hst - 1)).

(** The closure [windowfunc] that [window(func)] returns.  [history] is
    the deque it has captured, [sample] the value of its call of
    [func()]; the deque after the call is returned with the result.
    [opts.window] and [opts.interval] are integers. *)
Definition windowfunc (o : Watch.opts) (sample : num) (history : list num)
  : list num * result num :=
  let history := history ++ [sample] in
  let history :=
    if decide (len history > Watch.window o) then tail history
    else history in
  if decide (len history <= 1) then (history, ret (I 0))
  else
    (history,
     d <- delta history ;;
     s <- sum d ;;
     k <- float_of (len history - 1) ;;
     n <- div s (F k) ;;
     div n (I (Watch.interval o))).

(** Successive calls of one sampler, [func()] returning the elements of
    [samples] in turn: the deque at the end and the results in order. *)
Fixpoint ticks (o : Watch.opts) (samples : list num) (history : list num)
  : list num * list (result num) :=
  match samples with
  | [] => (history, [])
  | x :: rest =>
      let '(history, r) := windowfunc o x history in
      let '(history, rs) := ticks o rest history in
      (history, r :: rs)
  end.

(** *** The rate as the specification words it

    The consecutive differences of the retained history, their
    arithmetic mean, divided by the interval; [0] for a history of at
    most one entry.  The arithmetic is that of Python. *)
Fixpoint differences (h : list num) : result (list num) :=
  match h with
  | a :: (b :: _) as rest =>
      d <- sub b a ;; ds <- differences rest ;; ret (d :: ds)
  | _ => ret []
  end.

Definition mean (l : list num) : result num :=
  s <- sum l ;; k <- float_of (len l) ;; div s (F k).

Definition rate (interval : Z) (h : list num) : result num :=
  if decide (len h <= 1) then ret (I 0)
  else d <- differences h ;; m <- mean d ;; div m (I interval).

(** The same on integers, where nothing is rounded. *)
Fixpoint gaps (h : list Z) : list Z :=
  match h with
  | a :: (b :: _) as rest => (b - a) :: gaps rest
  | _ => []
  end.

Definition total (l : list Z) : Z := fold_left Z.add l 0.

(** The number that a result denotes, when it is one. *)
Definition value (a : num) : option Q :=
  match a with
  | I z => Some (inject_Z z)
  | F f =>
      match Prim2SF f with
      | S754_zero _ => Some 0%Q
      | S754_finite s m e =>
          Some (inject_Z (if s then Z.neg m else Z.pos m) * Qpower 2 e)%Q
      | _ => None
      end
  end.

End Sampler.

(** * Properties *)

Module PyFacts.
Import Py.

Lemma digit_byte_spec d :
  0 <= d < 10 -> isdigit (digit_byte d) = true /\ digit_val (digit_byte d) = d.
Proof.
  intros H.
  assert (E : d = 0 \/ d = 1 \/ d = 2 \/ d = 3 \/ d = 4 \/ d = 5 \/ d = 6
              \/ d = 7 \/ d = 8 \/ d = 9) by lia.
  repeat (destruct E as [->|E]; [split; reflexivity|]).
  subst d; split; reflexivity.
Qed.

Lemma horner_snoc ds b : horner (ds ++ [b]) = 10 * horner ds + digit_val b.
Proof. unfold horner. rewrite fold_left_app. reflexivity. Qed.

Lemma udigits_spec n acc :
  0 <= n ->
  exists ds,
    udigits n acc = ds ++ acc /\ ds <> [] /\ all_digits ds /\ horner ds = n.
Proof.
  funelim (udigits n acc); intros Hn.
  - exists [digit_byte n]. destruct (digit_byte_spec n) as [D V]; [lia|].
    repeat split; [discriminate|repeat constructor; exact D|].
    unfold horner; simpl. lia.
  - destruct H as (ds & E & _ & D & V); [apply Z.div_pos; lia|].
    destruct (digit_byte_spec (n mod 10)) as [D' V'];
      [apply Z.mod_pos_bound; lia|].
    exists (ds ++ [digit_byte (n mod 10)]). repeat split.
    + rewrite E, <- app_assoc. reflexivity.
    + destruct ds; discriminate.
    + apply Forall_app; split; [exact D|repeat constructor; exact D'].
    + rewrite horner_snoc, V, V'. symmetry. apply Z.div_mod. lia.
Qed.

Lemma digit_not_space b : isdigit b = true -> isspace b = false.
Proof. unfold isdigit, isspace. lia. Qed.

Lemma digit_not_sign b : isdigit b = true -> b <> "+"%byte /\ b <> "-"%byte.
Proof. split; intros ->; discriminate. Qed.

Lemma span_all_digits ds : all_digits ds -> span_digits ds = (ds, []).
Proof.
  induction 1 as [|b ds Hb _ IH]; simpl; [reflexivity|].
  rewrite Hb, IH. reflexivity.
Qed.

Lemma int10_digits ds :
  ds <> [] -> all_digits ds -> int10 ds = Some (horner ds).
Proof.
  intros Hne Hd. destruct Hd as [|b ds Hb Hds]; [congruence|].
  assert (Hall : all_digits (b :: ds)) by (constructor; assumption).
  destruct (digit_not_sign b Hb) as [Hp Hm].
  unfold int10. simpl lstrip. rewrite (digit_not_space b Hb).
  unfold split_sign.
  destruct (decide (b = "+"%byte)); [contradiction|].
  destruct (decide (b = "-"%byte)); [contradiction|].
  simpl lstrip. rewrite (digit_not_space b Hb).
  rewrite (span_all_digits _ Hall). simpl. f_equal. lia.
Qed.

(** ['%d'] and [int] agree on the lengths the writer prints. *)
Lemma int10_fmt_d n : 0 <= n -> int10 (fmt_d n) = Some n.
Proof.
  intros Hn. unfold fmt_d. rewrite (proj2 (Z.ltb_ge n 0) Hn).
  destruct (udigits_spec n [] Hn) as (ds & E & Hne & Hd & V).
  rewrite E, app_nil_r, int10_digits, V by assumption. reflexivity.
Qed.

Lemma fmt_d_digits n : 0 <= n -> all_digits (fmt_d n).
Proof.
  intros Hn. unfold fmt_d. rewrite (proj2 (Z.ltb_ge n 0) Hn).
  destruct (udigits_spec n [] Hn) as (ds & E & _ & Hd & _).
  rewrite E, app_nil_r. exact Hd.
Qed.

Lemma all_digits_not_in ds sep :
  isdigit sep = false -> all_digits ds -> ~ In sep ds.
Proof.
  intros Hs Hd Hin. unfold all_digits in Hd. rewrite Forall_forall in Hd.
  apply list_elem_of_In in Hin. specialize (Hd _ Hin). congruence.
Qed.

Lemma lstrip_nil_spaces s : lstrip s = [] -> Forall numeric_byte s.
Proof.
  induction s as [|b s IH]; simpl; [constructor|].
  destruct (isspace b) eqn:E; [|discriminate].
  intros H. constructor; [unfold numeric_byte; auto|auto].
Qed.

Lemma lstrip_numeric s :
  Forall numeric_byte (lstrip s) -> Forall numeric_byte s.
Proof.
  induction s as [|b s IH]; simpl; [constructor|].
  destruct (isspace b) eqn:E; [|auto].
  intros H. constructor; [unfold numeric_byte; auto|auto].
Qed.

Lemma split_sign_numeric s :
  Forall numeric_byte (split_sign s).2 -> Forall numeric_byte s.
Proof.
  destruct s as [|b s]; simpl; [constructor|].
  destruct (decide (b = "+"%byte)) as [->|];
    [intros H; constructor; [unfold numeric_byte; auto|exact H]|].
  destruct (decide (b = "-"%byte)) as [->|];
    [intros H; constructor; [unfold numeric_byte; auto|exact H]|].
  auto.
Qed.

Lemma span_digits_numeric s :
  Forall numeric_byte (span_digits s).2 -> Forall numeric_byte s.
Proof.
  induction s as [|b s IH]; simpl; [constructor|].
  destruct (isdigit b) eqn:E; [|auto].
  destruct (span_digits s) as [ds rest]. simpl in *.
  intros H. constructor; [unfold numeric_byte; auto|auto].
Qed.

(** A field with a byte that is no digit, no white space and no sign is
    not an integer for [int]. *)
Lemma int10_numeric s z : int10 s = Some z -> Forall numeric_byte s.
Proof.
  unfold int10. intros H. apply lstrip_numeric, split_sign_numeric.
  destruct (split_sign (lstrip s)) as [sg s1]. cbn [snd].
  apply lstrip_numeric, span_digits_numeric.
  destruct (span_digits (lstrip s1)) as [ds s2]. cbn [snd].
  destruct ds; [discriminate|].
  destruct (lstrip s2) eqn:E; [|discriminate].
  apply lstrip_nil_spaces, E.
Qed.

Lemma int10_foreign_byte s b :
  In b s -> ~ numeric_byte b -> int10 s = None.
Proof.
  intros Hin Hb. destruct (int10 s) as [z|] eqn:E; [|reflexivity].
  apply int10_numeric in E. rewrite Forall_forall in E.
  exfalso. apply Hb, E, list_elem_of_In, Hin.
Qed.

End PyFacts.

Module CodecFacts.
Import Py PyFacts Codec.

Section Facts.
Context {Txn : Type} (put : bytes -> bytes -> Txn -> Txn).

#[local] Abbreviation M := (@Codec.M Txn).
#[local] Abbreviation world := (@Codec.world Txn).

Lemma scan_until_app sep ks rest :
  ~ In sep ks -> scan_until sep (ks ++ sep :: rest) = Some (ks, rest).
Proof.
  induction ks as [|b ks IH]; simpl; intros Hn.
  - destruct (decide (sep = sep)); [reflexivity|contradiction].
  - destruct (decide (b = sep)) as [->|_]; [exfalso; auto|].
    rewrite IH by auto. reflexivity.
Qed.

Lemma scan_until_none sep s : ~ In sep s -> scan_until sep s = None.
Proof.
  induction s as [|b s IH]; simpl; intros Hn; [reflexivity|].
  destruct (decide (b = sep)) as [->|_]; [exfalso; auto|].
  rewrite IH by auto. reflexivity.
Qed.

(** Reading through the monad. *)
Lemma bind_read_len {B} (a rest : bytes) (t : Txn) (k : bytes -> M B) :
  bind (read (len a)) k (World (a ++ rest) t) = k a (World rest t).
Proof.
  unfold bind, read, len. cbn [fp txn].
  destruct (Z.ltb_spec (Z.of_nat (length a)) 0) as [H|_]; [lia|].
  rewrite Nat2Z.id, take_app_length, drop_app_length. reflexivity.
Qed.

Lemma bind_read_1 {B} (b : byte) (rest : bytes) (t : Txn) (k : bytes -> M B) :
  bind (read 1) k (World (b :: rest) t) = k [b] (World rest t).
Proof. exact (bind_read_len [b] rest t k). Qed.

Lemma bind_read_2 {B} (b c : byte) (rest : bytes) (t : Txn)
  (k : bytes -> M B) :
  bind (read 2) k (World (b :: c :: rest) t) = k [b; c] (World rest t).
Proof. exact (bind_read_len [b; c] rest t k). Qed.

(** A read that asks for at least what is left gets what is left. *)
Lemma bind_read_rest {B} (n : Z) (s : bytes) (t : Txn) (k : bytes -> M B) :
  n < 0 \/ len s <= n ->
  bind (read n) k (World s t) = k s (World [] t).
Proof.
  intros H. unfold bind, read, len in *. cbn [fp txn].
  destruct (Z.ltb_spec n 0) as [|Hn]; [reflexivity|].
  rewrite take_ge, drop_ge by lia. reflexivity.
Qed.

Lemma bind_read_until {B} sep (ks rest : bytes) (t : Txn) (k : bytes -> M B) :
  ~ In sep ks ->
  bind (read_until sep) k (World (ks ++ sep :: rest) t) = k ks (World rest t).
Proof.
  intros H. unfold bind, read_until. cbn [fp txn].
  rewrite scan_until_app by assumption. reflexivity.
Qed.

Lemma bind_int_ok {B} (s : bytes) (z : Z) (k : Z -> M B) (w : world) :
  int10 s = Some z -> bind (int s) k w = k z w.
Proof. intros H. unfold bind, int. rewrite H. reflexivity. Qed.

Lemma bind_int_error {B} (s : bytes) (k : Z -> M B) (w : world) :
  int10 s = None -> bind (int s) k w = Raise ValueError w.
Proof. intros H. unfold bind, int. rewrite H. reflexivity. Qed.

(** Settling a test of the loop whose outcome the context decides. *)
Ltac settle H :=
  first [ discriminate | contradiction | exfalso; unfold len in *; lia
        | exfalso; apply H; unfold PLUS, ARROW, NL;
          first [reflexivity|discriminate] ].

Ltac decide_no :=
  match goal with
  | |- context [decide ?P] =>
      let H := fresh "D" in destruct (decide P) as [H|H]; [settle H|]
  end.

Ltac decide_yes :=
  match goal with
  | |- context [decide ?P] =>
      let H := fresh "D" in destruct (decide P) as [H|H]; [|settle H]
  end.

(** A turn on an accepted frame puts its record and continues. *)
Lemma iteration_framed s r s' t n :
  framed s r s' ->
  iteration put n (World s t) = Ok Continue (World s' (put r.1 r.2 t)).
Proof.
  destruct r as [key data].
  intros (ks & ds & -> & Hk & Hd & Ik & Id). cbn [fst snd] in *.
  unfold iteration. cbn [PLUS ARROW NL app].
  rewrite bind_read_1.
  do 2 decide_no.
  unfold bind at 1, try_ValueError.
  rewrite bind_read_until, (bind_int_ok _ _ _ _ Ik) by assumption.
  rewrite bind_read_until, (bind_int_ok _ _ _ _ Id) by assumption.
  unfold ret at 1.
  rewrite bind_read_len, bind_read_2. decide_no.
  rewrite bind_read_len. decide_no.
  rewrite bind_read_1. decide_no.
  reflexivity.
Qed.

Lemma scan_until_inv sep s ks rest :
  scan_until sep s = Some (ks, rest) -> s = ks ++ sep :: rest /\ ~ In sep ks.
Proof.
  revert ks rest. induction s as [|b s IH]; intros ks rest; simpl;
    [discriminate|].
  destruct (decide (b = sep)) as [->|Hb].
  - intros [= <- <-]. split; [reflexivity|intros []].
  - destruct (scan_until sep s) as [[g r]|]; [|discriminate].
    intros [= <- <-]. destruct (IH _ _ eq_refl) as [-> Hn].
    split; [reflexivity|]. intros [H|H]; [congruence|contradiction].
Qed.

(** Only accepted frames make a turn continue. *)
Lemma iteration_continue_inv s t n w' :
  iteration put n (World s t) = Ok Continue w' ->
  exists r s', framed s r s' /\ w' = World s' (put r.1 r.2 t).
Proof.
  unfold iteration. destruct s as [|b s].
  - rewrite bind_read_rest by (right; unfold len; simpl; lia).
    destruct (decide ([] = NL)); [discriminate|].
    destruct (decide ([] <> PLUS)) as [|D]; [discriminate|].
    exfalso; apply D; discriminate.
  - rewrite bind_read_1.
    destruct (decide ([b] = NL)); [discriminate|].
    destruct (decide ([b] <> PLUS)) as [|D]; [discriminate|].
    assert (Hb : [b] = PLUS) by (destruct (decide ([b] = PLUS)); tauto).
    injection Hb as ->.
    unfold bind, try_ValueError, read_until, int, ret, read, die, txn_put.
    cbn [fp txn].
    destruct (scan_until COMMA s) as [[ks r1]|] eqn:E1; [|discriminate].
    destruct (int10 ks) as [klen|] eqn:Ik; [|discriminate]. cbn [fp txn].
    destruct (scan_until COLON r1) as [[ds r2]|] eqn:E2; [|discriminate].
    destruct (int10 ds) as [dlen|] eqn:Id; [|discriminate]. cbn [fp txn].
    apply scan_until_inv in E1 as [-> Hk].
    apply scan_until_inv in E2 as [-> Hd].
    change (2 <? 0) with false. change (1 <? 0) with false.
    change (Z.to_nat 2) with 2%nat. change (Z.to_nat 1) with 1%nat.
    destruct (Z.ltb_spec klen 0) as [|Hk0]; cbn [fp txn].
    { destruct (decide (take 2 (@nil byte) <> ARROW)) as [|D1];
        [discriminate|]. exfalso; apply D1; discriminate. }
    set (key := take (Z.to_nat klen) r2). set (r3 := drop (Z.to_nat klen) r2).
    destruct (decide (take 2 r3 <> ARROW)) as [|Ha]; [discriminate|].
    assert (Harrow : take 2 r3 = ARROW)
      by (destruct (decide (take 2 r3 = ARROW)); tauto).
    set (r4 := drop 2 r3).
    assert (Hkey : len key = klen).
    { apply (f_equal length) in Harrow. unfold r3 in Harrow.
      rewrite length_take, length_drop in Harrow.
      change (length ARROW) with 2%nat in Harrow.
      unfold len, key. rewrite length_take. lia. }
    destruct (Z.ltb_spec dlen 0) as [Hd0|Hd0]; cbn [fp txn].
    { destruct (decide (len key + len r4 <> klen + dlen)) as [|D1];
        [discriminate|]. exfalso; apply D1. unfold len in *. lia. }
    set (data := take (Z.to_nat dlen) r4). set (r5 := drop (Z.to_nat dlen) r4).
    assert (Hdata : len data <= dlen)
      by (unfold len, data; rewrite length_take; lia).
    destruct (decide (len key + len data <> klen + dlen)) as [|Hsum];
      [discriminate|].
    cbn [fp txn].
    destruct (decide (take 1 r5 <> NL)) as [|Hn]; [cbv beta; discriminate|].
    assert (Hnl : take 1 r5 = NL)
      by (destruct (decide (take 1 r5 = NL)); tauto).
    intros [= <-]. exists (key, data), (drop 1 r5). split; [|reflexivity].
    exists ks, ds. cbn [fst snd].
    assert (Hlen : len key = klen /\ len data = dlen) by lia.
    destruct Hlen as [-> ->]. repeat split; try assumption.
    rewrite <- Harrow, <- Hnl. unfold key, data, r5, r4, r3.
    rewrite !take_drop. reflexivity.
Qed.

(** What the writer emits for a record is an accepted frame of it. *)
Lemma dump_record_app out r : dump_record out r = out ++ dump_record [] r.
Proof.
  destruct r as [key value]. unfold dump_record, write.
  rewrite !app_nil_l, <- !app_assoc. reflexivity.
Qed.

Lemma framed_dump_record r s' : framed (dump_record [] r ++ s') r s'.
Proof.
  destruct r as [key value].
  exists (fmt_d (len key)), (fmt_d (len value)).
  assert (Hk : 0 <= len key) by (unfold len; lia).
  assert (Hv : 0 <= len value) by (unfold len; lia).
  repeat split.
  - unfold dump_record, write, fmt_header. cbn [fst snd].
    rewrite !app_nil_l, <- !app_assoc. reflexivity.
  - apply all_digits_not_in; [reflexivity|apply fmt_d_digits, Hk].
  - apply all_digits_not_in; [reflexivity|apply fmt_d_digits, Hv].
  - apply int10_fmt_d, Hk.
  - apply int10_fmt_d, Hv.
Qed.

Lemma fold_dump_record_cons r recs out :
  fold_left dump_record (r :: recs) out
  = out ++ dump_record [] r ++ fold_left dump_record recs [].
Proof.
  revert r out. induction recs as [|r' recs IH]; intros r out.
  - simpl. rewrite app_nil_r. apply dump_record_app.
  - change (fold_left dump_record (r :: r' :: recs) out)
      with (fold_left dump_record (r' :: recs) (dump_record out r)).
    rewrite IH, (dump_record_app out r), <- app_assoc. f_equal. f_equal.
    rewrite IH. reflexivity.
Qed.

Lemma framing_dump recs s' :
  framing (fold_left dump_record recs [] ++ s') recs s'.
Proof.
  induction recs as [|r recs IH]; [constructor|].
  rewrite fold_dump_record_cons, app_nil_l, <- app_assoc.
  econstructor; [apply framed_dump_record|exact IH].
Qed.

(** The loop runs through accepted frames, counting them and putting
    their records. *)
Lemma restore_loop_framing s recs s' t n :
  framing s recs s' ->
  restore_loop put n (World s t)
  = restore_loop put (n + len recs) (World s' (put_all put recs t)).
Proof.
  intros F. revert t n. induction F as [s|s r s1 recs s' Fr _ IH]; intros t n.
  - unfold len; simpl. rewrite Z.add_0_r. reflexivity.
  - rewrite restore_loop_step, (iteration_framed _ _ _ _ _ Fr), IH.
    unfold len; simpl length. rewrite Nat2Z.inj_succ.
    f_equal. lia.
Qed.

(** The bare newline ends the loop. *)
Lemma restore_loop_end rest t n :
  restore_loop put n (World (NL ++ rest) t) = Ok (n + 1) (World rest t).
Proof.
  rewrite restore_loop_step. unfold iteration. cbn [NL app].
  rewrite bind_read_1. decide_yes. reflexivity.
Qed.

(** A length field that the input ends in: the search for the delimiter
    never returns. *)
Lemma unterminated_length_hangs ks t :
  ~ In COMMA ks ->
  restore_cursor_from_fp put t (PLUS ++ ks) = Diverge (World [] t).
Proof.
  intros Hk. unfold restore_cursor_from_fp.
  rewrite restore_loop_step. unfold iteration. cbn [PLUS app].
  rewrite bind_read_1. do 2 decide_no.
  unfold bind, try_ValueError, read_until. cbn [fp txn].
  rewrite scan_until_none by assumption. reflexivity.
Qed.

(** *** What a turn leaves behind when it does not continue *)








Lemma quiet_decide {A} ve n (P : Prop) (d : Decision P) (m1 m2 : M A) :
  quiet ve n m1 -> quiet ve n m2 -> quiet ve n (if d then m1 else m2).
Proof. destruct d; auto. Qed.





(** *** The claims about the codec *)

(** C1. Round trip of one record: on the bytes that [dump_cursor_to_fp]
    writes for a record [(key, value)], whatever bytes the key and the
    value hold and whatever follows, a turn of [restore_cursor_from_fp]
    reads exactly these bytes and puts exactly [(key, value)]. *)
Theorem decode_encode_roundtrip (key value rest : bytes) (t : Txn) (n : Z) :
  iteration put n (World (dump_record [] (key, value) ++ rest) t)
  = Ok Continue (World rest (put key value t)).
Proof. apply (iteration_framed _ (key, value)), framed_dump_record. Qed.

(** C2. Reading back what was written: the records are put in their
    order and nothing else is, the input is read to its end, but the
    value returned is the number of records plus one (the turn that meets
    the end marker is counted): [1] for the empty sequence. *)
Theorem restore_dump_count_plus_one (recs : list record) (t : Txn) :
  restore_cursor_from_fp put t (dump_cursor_to_fp recs [])
  = Ok (len recs + 1) (World [] (put_all put recs t)).
Proof.
  unfold restore_cursor_from_fp, dump_cursor_to_fp, write.
  rewrite (restore_loop_framing _ recs NL) by apply framing_dump.
  rewrite <- (app_nil_r NL) at 1. rewrite restore_loop_end.
  reflexivity.
Qed.


(** C7, as the code has it. A length field that [int] does not accept
    (accepted are: white space, an optional sign, white space, one or more
    decimal digits, white space) makes the call die with "bad or missing
    length" and the number of the record, once its delimiter is found;
    this holds for the key length, and for the value length after an
    accepted key length. *)
Theorem rejected_length_bad_length
  (t : Txn) (input : bytes) (recs : list record) (ks rest : bytes) :
  framing input recs (PLUS ++ ks ++ [COMMA] ++ rest) ->
  ~ In COMMA ks ->
  int10 ks = None
  \/ (exists ds rest', rest = ds ++ [COLON] ++ rest' /\ ~ In COLON ds
                       /\ int10 ks <> None /\ int10 ds = None) ->
  exists w,
    restore_cursor_from_fp put t input
    = Raise (Died bad_length (len recs + 1)) w
    /\ txn w = put_all put recs t.
Proof.
  intros F Hk H. unfold restore_cursor_from_fp.
  rewrite (restore_loop_framing _ _ _ _ _ F), restore_loop_step, Z.add_0_l.
  unfold iteration. cbn [PLUS app].
  rewrite bind_read_1. do 2 decide_no.
  unfold bind at 1, try_ValueError.
  rewrite bind_read_until by assumption.
  destruct H as [Ik|(ds & rest' & -> & Hd & Ik & Id)].
  - rewrite (bind_int_error _ _ _ Ik). eexists; split; reflexivity.
  - destruct (int10 ks) as [klen|] eqn:Ek; [|congruence].
    rewrite (bind_int_ok _ _ _ _ Ek). cbn [app].
    rewrite bind_read_until, (bind_int_error _ _ _ Id) by assumption.
    eexists; split; reflexivity.
Qed.

End Facts.
End CodecFacts.

Module WatchFacts.
Import Watch.




Lemma windowfunc_history o x h :
  fst (windowfunc o x h)
  = if decide (len (h ++ [x]) > window o) then tail (h ++ [x]) else h ++ [x].
Proof.
  unfold windowfunc.
  repeat match goal with |- context [decide ?P] => destruct (decide P) end;
    reflexivity.
Qed.





(** *** The widths of the columns *)

Lemma at_lookup ws i w : ws !! i = Some w -> at_ ws i = w.
Proof. intros H. unfold at_. rewrite H. reflexivity. Qed.

(** The first loop of a turn takes, column by column, the larger of the
    width so far and the width of the new value. *)
Lemma measure_from (pre mid : list Z) (vs : list bytes) :
  length mid = length vs ->
  fold_left (fun ws '(i, val) => <[i := Z.max (at_ ws i) (len val)]> ws)
            (zip (seq (length pre) (length vs)) vs) (pre ++ mid)
  = pre ++ zip_with Z.max mid (map len vs).
Proof.
  revert pre mid. induction vs as [|v vs IH]; intros pre [|m mid] Hl;
    try discriminate; [reflexivity|].
  cbn [length seq zip_with fold_left map].
  rewrite (at_lookup _ _ m) by (apply list_lookup_middle; reflexivity).
  rewrite insert_app_r_alt, Nat.sub_diag by lia. cbn [insert list_insert].
  specialize (IH (pre ++ [Z.max m (len v)]) mid).
  rewrite length_app, Nat.add_1_r, <- app_assoc in IH. cbn [app] in IH.
  rewrite IH by (simpl in Hl; lia). rewrite <- app_assoc. reflexivity.
Qed.

Lemma measure_zip (vs : list bytes) (ws : list Z) :
  length ws = length vs -> measure vs ws = zip_with Z.max ws (map len vs).
Proof. intros Hl. exact (measure_from [] ws vs Hl). Qed.

Lemma measure_length vs ws :
  length ws = length vs -> length (measure vs ws) = length ws.
Proof.
  intros Hl. rewrite measure_zip, length_zip_with, length_map by assumption.
  lia.
Qed.

Lemma measure_at vs ws i :
  length ws = length vs -> (i < length ws)%nat ->
  at_ (measure vs ws) i = Z.max (at_ ws i) (len (nth i vs [])).
Proof.
  intros Hl Hi. rewrite measure_zip by assumption.
  destruct (lookup_lt_is_Some_2 ws i Hi) as [w Hw].
  destruct (lookup_lt_is_Some_2 vs i) as [v Hv]; [lia|].
  rewrite (at_lookup _ _ _ Hw), (nth_lookup_Some _ _ _ _ Hv).
  apply at_lookup. rewrite lookup_zip_with, Hw, list_lookup_fmap, Hv.
  reflexivity.
Qed.

Lemma watch_turn_inv heads st t st' out :
  watch_turn heads st t = Some (st', out) ->
  widths st' = measure (vals t) (widths st)
  /\ (out = line (widths st') (vals t)
      \/ out = line (widths st') heads ++ line (widths st') (vals t)).
Proof.
  unfold watch_turn. destruct (header_due st t) as [[|]|]; intros [= <- <-];
    simpl; auto.
Qed.

Lemma fold_max_le (l : list Z) (a : Z) : a <= fold_left Z.max l a.
Proof.
  revert a. induction l as [|x l IH]; intros a; simpl; [lia|].
  specialize (IH (Z.max a x)). lia.
Qed.

Lemma watch_run_widths heads ts st st' out :
  Forall (fun t => length (vals t) = length (widths st)) ts ->
  watch_run heads st ts = Some (st', out) ->
  length (widths st') = length (widths st)
  /\ forall i, (i < length (widths st))%nat ->
       at_ (widths st') i
       = fold_left Z.max (map len (column i ts)) (at_ (widths st) i).
Proof.
  revert st out. induction ts as [|t ts IH]; intros st out Hall; simpl.
  - intros [= <- _]. auto.
  - inversion Hall as [|? ? Ht Hts]; subst.
    destruct (watch_turn heads st t) as [[st1 o1]|] eqn:E1; [|discriminate].
    destruct (watch_run heads st1 ts) as [[st2 o2]|] eqn:E2; [|discriminate].
    intros [= <- _]. apply watch_turn_inv in E1 as [W1 _].
    assert (L1 : length (widths st1) = length (widths st))
      by (rewrite W1; apply measure_length; congruence).
    destruct (IH st1 o2) as [L2 A2]; [|exact E2|].
    { rewrite L1. exact Hts. }
    split; [congruence|]. intros i Hi.
    rewrite A2, W1, measure_at by congruence. reflexivity.
Qed.

Lemma enumerate_lookup {A} (l : list A) i x :
  l !! i = Some x -> enumerate l !! i = Some (i, x).
Proof.
  intros H. unfold enumerate. rewrite lookup_zip_with, lookup_seq_lt, H.
  - reflexivity.
  - eapply lookup_lt_Some, H.
Qed.

Lemma cells_lookup ws texts i s :
  texts !! i = Some s -> cells ws texts !! i = Some (Py.rjust (at_ ws i + 1) s).
Proof.
  intros H. unfold cells.
  rewrite list_lookup_fmap, (enumerate_lookup _ _ _ H). reflexivity.
Qed.

(** Justifying to one more than a width that holds the text: a space,
    then the text justified to the width, which it then fills. *)
Lemma rjust_succ w s :
  len s <= w ->
  Py.rjust (w + 1) s = " "%byte :: Py.rjust w s /\ len (Py.rjust w s) = w.
Proof.
  intros H. unfold Py.rjust. split.
  - replace (Z.to_nat (w + 1 - len s)) with (S (Z.to_nat (w - len s))) by lia.
    reflexivity.
  - unfold len in *. rewrite length_app, length_replicate. lia.
Qed.

(** C9. Terminal mode, for a column [i] labelled [head]: after any run of
    turns its width is the largest of the width of the label and of the
    widths of the values shown so far; a further turn does not make it
    smaller, and writes each cell of the column (the value, and the label
    when the header is written again) as one space followed by the text
    right-justified to the width the column has then. *)
Theorem columns_never_shrink
  (heads : list bytes) (ts : list turn) (st : loop_state) (out : bytes)
  (i : nat) (head : bytes) :
  Forall (fun t => length (vals t) = length heads) ts ->
  watch_run heads (watch_init heads) ts = Some (st, out) ->
  heads !! i = Some head ->
  at_ (widths st) i = column_width head (column i ts)
  /\ forall (t : turn) (st' : loop_state) (out' : bytes),
       length (vals t) = length heads ->
       watch_turn heads st t = Some (st', out') ->
       let w := at_ (widths st') i in
       at_ (widths st) i <= w
       /\ (out' = line (widths st') (vals t)
           \/ out' = line (widths st') heads ++ line (widths st') (vals t))
       /\ (cells (widths st') heads !! i = Some (" "%byte :: Py.rjust w head)
           /\ len (Py.rjust w head) = w)
       /\ forall v, vals t !! i = Some v ->
            cells (widths st') (vals t) !! i = Some (" "%byte :: Py.rjust w v)
            /\ len (Py.rjust w v) = w.
Proof.
  intros Hall Hrun Hhead.
  assert (Hi : (i < length heads)%nat) by (eapply lookup_lt_Some, Hhead).
  assert (L0 : length (widths (watch_init heads)) = length heads)
    by apply length_map.
  destruct (watch_run_widths heads ts (watch_init heads) st out) as [L A];
    [|exact Hrun|].
  { rewrite L0. exact Hall. }
  assert (A0 : at_ (widths (watch_init heads)) i = len head).
  { apply at_lookup. simpl. rewrite list_lookup_fmap, Hhead. reflexivity. }
  assert (Hst : at_ (widths st) i = column_width head (column i ts)).
  { rewrite A, A0 by lia. reflexivity. }
  split; [exact Hst|].
  intros t st' out' Ht Hturn w. apply watch_turn_inv in Hturn as [W O].
  assert (Hw : w = Z.max (at_ (widths st) i) (len (nth i (vals t) []))).
  { unfold w. rewrite W. apply measure_at; lia. }
  assert (Hh : len head <= at_ (widths st) i).
  { rewrite Hst. apply fold_max_le. }
  split; [lia|]. split; [exact O|]. split.
  - rewrite (cells_lookup _ _ _ _ Hhead). fold w.
    destruct (rjust_succ w head) as [-> ?]; [lia|auto].
  - intros v Hv. rewrite (cells_lookup _ _ _ _ Hv). fold w.
    rewrite (nth_lookup_Some _ _ _ _ Hv) in Hw.
    destruct (rjust_succ w v) as [-> ?]; [lia|auto].
Qed.
End WatchFacts.

Module TermFacts.
Import Term.

(** C8, as the code has it.  When the query fails, [_get_term_width]
    returns the integer 80, which the assignment to the two globals
    cannot unpack: [_on_sigwinch] raises [TypeError] and leaves the
    globals as they were, so that after a failure at start-up a read of
    [_TERM_WIDTH] finds no value at all. *)
Theorem failed_query_raises_TypeError (g : globals) :
  _get_term_width None 80 = Int 80
  /\ _on_sigwinch None g = (g, Some TypeError)
  /\ read_TERM_WIDTH (fst (_on_sigwinch None unbound)) = inr NameError.
Proof. repeat split. Qed.

End TermFacts.

(** ** Instances *)

Module Instances.
Import Py Codec CodecFacts Watch WatchFacts.

Ltac absent := unfold COMMA, COLON; simpl; intuition discriminate.

(** The frame of the record [("a", "b")] in front of [rest]. *)
Ltac one_frame rest :=
  apply (framing_cons _ (lit "a", lit "b") rest); [|apply framing_nil];
  exists (lit "1"), (lit "1");
  split; [reflexivity|]; split; [absent|]; split; [absent|];
  split; reflexivity.


(** The frame that begins [+3x,5:]. *)
Lemma malformed_header_instance :
  exists w,
    restore_cursor_from_fp log_put [] (lit "+3x,5:abcde->fghij")
    = Raise (Died bad_length 1) w
    /\ txn w = [].
Proof.
  refine (rejected_length_bad_length log_put [] _ [] (lit "3x")
            (lit "5:abcde->fghij") _ _ _).
  - apply framing_nil.
  - absent.
  - left. reflexivity.
Defined.

(** C7 as stated fails: the key length field [+3] holds a byte that is
    not a digit, and the frame is accepted. *)
Lemma signed_length_is_accepted :
  ~ (forall (ks rest : bytes),
       (exists b, In b ks /\ isdigit b = false) -> ~ In COMMA ks ->
       exists w,
         restore_cursor_from_fp log_put [] (PLUS ++ ks ++ [COMMA] ++ rest)
         = Raise (Died bad_length 1) w).
Proof.
  intros H.
  destruct (H (lit "+3") (lit "2:abc->de" ++ NL ++ NL)) as [w Hw].
  - exists "+"%byte. split; [left|]; reflexivity.
  - absent.
  - vm_compute in Hw. discriminate Hw.
Qed.


(** Two columns and one turn that widens the second. *)
Lemma column_width_instance :
  at_ [5; 7] 1
  = column_width (lit "Leaf")
      (column 1 [Turn [lit "3"; lit "1234567"] 80 24]).
Proof.
  refine (proj1 (columns_never_shrink [lit "Depth"; lit "Leaf"]
                   [Turn [lit "3"; lit "1234567"] 80 24]
                   (LoopState [5; 7] 80 1) _ 1%nat (lit "Leaf") _ _ _)).
  - repeat constructor.
  - vm_compute. reflexivity.
  - reflexivity.
Defined.

End Instances.

(** ** Further properties of the reader and the writer *)

Module CodecMore.
Import Py PyFacts Codec CodecFacts.

Section More.
Context {Txn : Type} (put : bytes -> bytes -> Txn -> Txn).

#[local] Abbreviation world := (@Codec.world Txn).

(** Settling a test of the loop that the context decides. *)
Ltac settled H :=
  first [ discriminate | contradiction | exfalso; unfold len in *; lia
        | exfalso; apply H; unfold PLUS, ARROW, NL;
          first [reflexivity|discriminate] ].

Ltac test_no :=
  match goal with
  | |- context [decide ?P] =>
      let H := fresh "D" in destruct (decide P) as [H|H]; [settled H|]
  end.

Ltac test_yes :=
  match goal with
  | |- context [decide ?P] =>
      let H := fresh "D" in destruct (decide P) as [H|H]; [|settled H]
  end.

Lemma put_all_log (recs t : list record) : put_all log_put recs t = t ++ recs.
Proof.
  revert t. induction recs as [|r recs IH]; intros t; simpl.
  - rewrite app_nil_r. reflexivity.
  - rewrite IH. unfold log_put. destruct r. rewrite <- app_assoc. reflexivity.
Qed.

(** Reading a dump back into a sink that keeps the records. *)
Lemma restore_dump_back (recs : list record) :
  restore_cursor_from_fp log_put [] (dump_cursor_to_fp recs [])
  = Ok (len recs + 1) (World [] recs).
Proof.
  unfold restore_cursor_from_fp, dump_cursor_to_fp, write.
  rewrite (restore_loop_framing log_put _ recs NL) by apply framing_dump.
  rewrite <- (app_nil_r NL) at 1. rewrite restore_loop_end, put_all_log.
  reflexivity.
Qed.

Lemma scan_until_none_inv sep s : scan_until sep s = None -> ~ In sep s.
Proof.
  induction s as [|b s IH]; simpl; [tauto|].
  destruct (decide (b = sep)); [discriminate|].
  destruct (scan_until sep s) as [[g r]|]; [discriminate|].
  intros _ [H|H]; [congruence|]. exact (IH eq_refl H).
Qed.

(** Taking the tests of a turn apart. *)
Ltac apart :=
  repeat match goal with
    | |- context [decide ?P] => destruct (decide P)
    | |- context [?a <? ?b] => destruct (a <? b)
    end; cbn [fp txn]; try discriminate.

(** Only the bare newline makes a turn break. *)
Lemma iteration_break_inv s t n w' :
  iteration put n (World s t) = Ok Break w' ->
  exists junk, s = NL ++ junk /\ w' = World junk t.
Proof.
  unfold iteration. destruct s as [|b s].
  - rewrite bind_read_rest by (right; unfold len; simpl; lia).
    destruct (decide ([] = NL)); [discriminate|].
    destruct (decide ([] <> PLUS)) as [|D]; [discriminate|].
    exfalso; apply D; discriminate.
  - rewrite bind_read_1.
    destruct (decide ([b] = NL)) as [[= ->]|_].
    { intros [= <-]. exists s. split; reflexivity. }
    destruct (decide ([b] <> PLUS)) as [|D]; [discriminate|].
    unfold bind, try_ValueError, read_until, int, ret, read, die, txn_put.
    cbn [fp txn].
    destruct (scan_until COMMA s) as [[ks r1]|]; [|discriminate].
    destruct (int10 ks) as [klen|]; [|discriminate]. cbn [fp txn].
    destruct (scan_until COLON r1) as [[ds r2]|]; [|discriminate].
    destruct (int10 ds) as [dlen|]; [|discriminate]. cbn [fp txn].
    apart.
Qed.

(** A turn hangs only in a length field that the input ends in. *)
Lemma iteration_diverge_inv s t n w' :
  iteration put n (World s t) = Diverge w' ->
  exists f, s = PLUS ++ f
    /\ (~ In COMMA f
        \/ exists ks ds, f = ks ++ [COMMA] ++ ds /\ ~ In COMMA ks
                         /\ int10 ks <> None /\ ~ In COLON ds)
    /\ w' = World [] t.
Proof.
  unfold iteration. destruct s as [|b s].
  - rewrite bind_read_rest by (right; unfold len; simpl; lia).
    destruct (decide ([] = NL)); [discriminate|].
    destruct (decide ([] <> PLUS)) as [|D]; [discriminate|].
    exfalso; apply D; discriminate.
  - rewrite bind_read_1.
    destruct (decide ([b] = NL)); [discriminate|].
    destruct (decide ([b] <> PLUS)) as [|D]; [discriminate|].
    assert (Hb : [b] = PLUS) by (destruct (decide ([b] = PLUS)); tauto).
    injection Hb as ->. exists s. split; [reflexivity|].
    revert H.
    unfold bind, try_ValueError, read_until, int, ret, read, die, txn_put.
    cbn [fp txn].
    destruct (scan_until COMMA s) as [[ks r1]|] eqn:E1.
    2:{ intros [= <-]. split; [|reflexivity].
        left. apply scan_until_none_inv, E1. }
    destruct (int10 ks) as [klen|] eqn:Ik; [|discriminate]. cbn [fp txn].
    apply scan_until_inv in E1 as [-> Hk].
    destruct (scan_until COLON r1) as [[ds r2]|] eqn:E2.
    2:{ intros [= <-]. split; [|reflexivity].
        right. exists ks, r1. repeat split; auto.
        - congruence.
        - apply scan_until_none_inv, E2. }
    destruct (int10 ds) as [dlen|]; [|discriminate]. cbn [fp txn].
    apart.
Qed.

(** Every run of the loop is a run through accepted frames and one last
    turn, which does not continue and gives the outcome. *)
Lemma restore_loop_trace (k : nat) : forall n (w : world),
  (length (fp w) < k)%nat ->
  exists recs rest,
    framing (fp w) recs rest
    /\ let last := iteration put (n + len recs + 1)
                     (World rest (put_all put recs (txn w))) in
       match last with
       | Ok Continue _ => False
       | Ok Break w' => restore_loop put n w = Ok (n + len recs + 1) w'
       | Raise e w' => restore_loop put n w = Raise e w'
       | Diverge w' => restore_loop put n w = Diverge w'
       end.
Proof.
  induction k as [|k IH]; intros n [s t] Hk; [lia|].
  destruct (iteration put (n + 1) (World s t)) as [[|] w1|e w1|w1] eqn:E.
  - exists [], s. split; [constructor|]. cbn [fp txn put_all fold_left].
    change (len (@nil record)) with 0. rewrite Z.add_0_r, E.
    rewrite restore_loop_step, E. reflexivity.
  - pose proof (iteration_consumes put _ _ _ E) as Hc.
    destruct (iteration_continue_inv put _ _ _ _ E) as (r & s1 & Fr & ->).
    cbn [fp] in *.
    destruct (IH (n + 1) (World s1 (put r.1 r.2 t))) as (recs & rest & F & L);
      [cbn [fp]; lia|].
    exists (r :: recs), rest. split; [econstructor; eassumption|].
    cbn [fp txn] in *.
    replace (n + len (r :: recs) + 1) with (n + 1 + len recs + 1)
      by (unfold len; simpl length; lia).
    change (put_all put (r :: recs) t)
      with (put_all put recs (put r.1 r.2 t)).
    rewrite (restore_loop_step put n), E. exact L.
  - exists [], s. split; [constructor|]. cbn [fp txn put_all fold_left].
    change (len (@nil record)) with 0. rewrite Z.add_0_r, E.
    rewrite restore_loop_step, E. reflexivity.
  - exists [], s. split; [constructor|]. cbn [fp txn put_all fold_left].
    change (len (@nil record)) with 0. rewrite Z.add_0_r, E.
    rewrite restore_loop_step, E. reflexivity.
Qed.

(** X1. A turn of the loop puts a record and goes on exactly on an
    accepted frame: ['+'], a field that [int] reads as the number of bytes
    of the key, [','], a field that [int] reads as the number of bytes of
    the value, [':'], the key, ["->"], the value, a newline.  The record
    put is that key and value, and the input is left after the newline. *)
Theorem turn_continues_iff (s : bytes) (t : Txn) (n : Z) (w' : world) :
  iteration put n (World s t) = Ok Continue w'
  <-> exists r s', framed s r s' /\ w' = World s' (put r.1 r.2 t).
Proof.
  split.
  - apply iteration_continue_inv.
  - intros (r & s' & F & ->). apply iteration_framed, F.
Qed.

(** X2. The call returns exactly on accepted frames followed by the bare
    newline: it returns one more than the number of the records, has put
    them in their order, and leaves what follows the newline in the
    file, unread, whatever it is.  On no other input does it return. *)
Theorem restore_returns_iff
  (t : Txn) (input : bytes) (count : Z) (w : world) :
  restore_cursor_from_fp put t input = Ok count w
  <-> exists recs junk,
        framing input recs (NL ++ junk)
        /\ count = len recs + 1
        /\ w = World junk (put_all put recs t).
Proof.
  unfold restore_cursor_from_fp. split.
  - intros R.
    destruct (restore_loop_trace (S (length input)) 0 (World input t))
      as (recs & rest & F & L); [cbn [fp]; lia|].
    cbn [fp txn] in *. cbv zeta in L. rewrite Z.add_0_l in L.
    destruct (iteration put (len recs + 1)
                (World rest (put_all put recs t)))
      as [[|] w1|e w1|w1] eqn:E; try contradiction;
      rewrite R in L; try discriminate L.
    injection L as -> ->.
    apply iteration_break_inv in E as (junk & -> & ->).
    exists recs, junk. auto.
  - intros (recs & junk & F & -> & ->).
    rewrite (restore_loop_framing put _ _ _ t 0 F), restore_loop_end.
    rewrite Z.add_0_l. reflexivity.
Qed.

(** X3. No end marker: when the accepted frames are followed by the end
    of the input, or by a byte that is neither ['+'] nor a newline, the
    call dies with "bad or missing plus" and the number of the record that
    would come next, all the records before having been put. *)
Theorem missing_end_marker_bad_plus
  (t : Txn) (input : bytes) (recs : list record) (rest : bytes) :
  framing input recs rest ->
  head rest <> Some "+"%byte -> head rest <> Some x0a ->
  restore_cursor_from_fp put t input
  = Raise (Died bad_plus (len recs + 1))
          (World (tail rest) (put_all put recs t)).
Proof.
  intros F Hp Hn. unfold restore_cursor_from_fp.
  rewrite (restore_loop_framing put _ _ _ t 0 F), restore_loop_step, Z.add_0_l.
  unfold iteration. destruct rest as [|b rest]; simpl in Hp, Hn.
  - rewrite bind_read_rest by (right; unfold len; simpl; lia).
    test_no. test_yes. reflexivity.
  - rewrite bind_read_1.
    destruct (decide ([b] = NL)) as [[= ->]|_]; [congruence|].
    destruct (decide ([b] <> PLUS)) as [_|E]; [reflexivity|].
    exfalso. apply E. intros [= ->]. congruence.
Qed.

(** X4. The call never returns exactly when, after accepted frames and
    a ['+'], the input ends in a length field: before the [','] of the
    key length, or before the [':'] of the value length that follows an
    accepted key length.  The records of the frames before were put. *)
Theorem restore_hangs_iff (t : Txn) (input : bytes) (w : world) :
  restore_cursor_from_fp put t input = Diverge w
  <-> exists recs f,
        framing input recs (PLUS ++ f)
        /\ (~ In COMMA f
            \/ exists ks ds, f = ks ++ [COMMA] ++ ds /\ ~ In COMMA ks
                             /\ int10 ks <> None /\ ~ In COLON ds)
        /\ w = World [] (put_all put recs t).
Proof.
  unfold restore_cursor_from_fp. split.
  - intros R.
    destruct (restore_loop_trace (S (length input)) 0 (World input t))
      as (recs & rest & F & L); [cbn [fp]; lia|].
    cbn [fp txn] in *. cbv zeta in L. rewrite Z.add_0_l in L.
    destruct (iteration put (len recs + 1)
                (World rest (put_all put recs t)))
      as [[|] w1|e w1|w1] eqn:E; try contradiction;
      rewrite R in L; try discriminate L.
    injection L as ->.
    apply iteration_diverge_inv in E as (f & -> & Hf & ->).
    exists recs, f. auto.
  - intros (recs & f & F & H & ->).
    rewrite (restore_loop_framing put _ _ _ t 0 F), restore_loop_step.
    rewrite Z.add_0_l.
    unfold iteration. cbn [PLUS app]. rewrite bind_read_1.
    do 2 test_no.
    unfold bind at 1, try_ValueError.
    destruct H as [Hf|(ks & ds & -> & Hk & Ik & Hd)].
    + unfold bind, read_until. cbn [fp txn].
      rewrite scan_until_none by assumption. reflexivity.
    + destruct (int10 ks) as [klen|] eqn:Ek; [|congruence]. cbn [app].
      rewrite bind_read_until, (bind_int_ok _ _ _ _ Ek) by assumption.
      unfold bind, read_until. cbn [fp txn].
      rewrite scan_until_none by assumption. reflexivity.
Qed.

(** X5. The line ending is checked before the record is put: a frame
    that is whole up to its value and is followed by anything but a
    newline, or by nothing, makes the call die with "bad line ending";
    its record is not put. *)
Theorem bad_line_ending_is_not_put
  (t : Txn) (input : bytes) (recs : list record)
  (ks ds key data rest : bytes) :
  framing input recs
    (PLUS ++ ks ++ [COMMA] ++ ds ++ [COLON] ++ key ++ ARROW ++ data ++ rest) ->
  ~ In COMMA ks -> ~ In COLON ds ->
  int10 ks = Some (len key) -> int10 ds = Some (len data) ->
  head rest <> Some x0a ->
  restore_cursor_from_fp put t input
  = Raise (Died bad_line_ending (len recs + 1))
          (World (tail rest) (put_all put recs t)).
Proof.
  intros F Hk Hd Ik Id Hr. unfold restore_cursor_from_fp.
  rewrite (restore_loop_framing put _ _ _ t 0 F), restore_loop_step, Z.add_0_l.
  unfold iteration. cbn [PLUS ARROW app]. rewrite bind_read_1. do 2 test_no.
  unfold bind at 1, try_ValueError.
  rewrite bind_read_until, (bind_int_ok _ _ _ _ Ik) by assumption.
  rewrite bind_read_until, (bind_int_ok _ _ _ _ Id) by assumption.
  unfold ret at 1.
  rewrite bind_read_len, bind_read_2. test_no.
  rewrite bind_read_len. test_no.
  destruct rest as [|b rest]; simpl in Hr.
  - rewrite bind_read_rest by (right; unfold len; simpl; lia).
    test_yes. reflexivity.
  - rewrite bind_read_1.
    destruct (decide ([b] <> NL)) as [_|E]; [reflexivity|].
    exfalso. apply E. intros [= ->]. congruence.
Qed.

End More.

Lemma dump_from (recs : list record) (out : bytes) :
  dump_cursor_to_fp recs out = out ++ dump_cursor_to_fp recs [].
Proof.
  unfold dump_cursor_to_fp, write. destruct recs as [|r recs].
  - reflexivity.
  - rewrite !fold_dump_record_cons, app_nil_l, <- !app_assoc. reflexivity.
Qed.

(** X8. The format is unambiguous: two sequences of records that
    [dump_cursor_to_fp] writes as the same bytes are the same sequence. *)
Theorem dump_is_injective (recs1 recs2 : list record) (out : bytes) :
  dump_cursor_to_fp recs1 out = dump_cursor_to_fp recs2 out ->
  recs1 = recs2.
Proof.
  rewrite (dump_from recs1), (dump_from recs2). intros E.
  apply app_inv_head in E.
  pose proof (restore_dump_back recs1) as R1.
  pose proof (restore_dump_back recs2) as R2.
  rewrite E in R1. rewrite R1 in R2. injection R2 as _ R2. exact R2.
Qed.

End CodecMore.

(** ** Further properties of the sampler and the renderer *)

Module WatchMore.
Import Watch WatchFacts.

(** With a window of at most one the deque never holds two entries. *)
Lemma short_window_ticks (o : opts) (xs h : list Q) :
  window o <= 1 -> len h <= 1 ->
  snd (ticks o xs h) = map (fun _ => Return 0%Q) xs.
Proof.
  intros Hw. revert h. induction xs as [|x xs IH]; intros h Hh;
    [reflexivity|].
  cbn [ticks map].
  pose proof (windowfunc_history o x h) as Hk.
  assert (Hr : snd (windowfunc o x h) = Return 0%Q
               /\ len (fst (windowfunc o x h)) <= 1).
  { rewrite Hk. unfold windowfunc.
    set (kept := if decide (len (h ++ [x]) > window o)
                 then tail (h ++ [x]) else h ++ [x]).
    assert (Hl : len kept <= 1).
    { unfold kept. destruct (decide (len (h ++ [x]) > window o)) as [g|g];
        unfold len in *; rewrite length_app in g; simpl in g.
      - destruct h as [|a h]; simpl; rewrite ?length_app; simpl in *; lia.
      - rewrite length_app. simpl. lia. }
    destruct (decide (len kept <= 1)); [auto|lia]. }
  destruct (windowfunc o x h) as [h1 r]. simpl in Hr. destruct Hr as [-> Hl].
  specialize (IH h1 Hl). destruct (ticks o xs h1) as [h2 rs]. simpl in *.
  rewrite IH. reflexivity.
Qed.

(** X10. A window of one or less gives no rate: every call returns 0,
    whatever the samples and whatever the interval. *)
Theorem short_window_always_zero (o : opts) (xs : list Q) :
  window o <= 1 -> snd (ticks o xs []) = map (fun _ => Return 0%Q) xs.
Proof.
  intros Hw. apply short_window_ticks; [exact Hw|unfold len; simpl; lia].
Qed.


(** *** The lines of the table *)

Lemma cells_lengths (ws : list Z) (texts : list bytes) :
  length texts = length ws ->
  (forall i s, texts !! i = Some s -> len s <= at_ ws i) ->
  map len (cells ws texts) = map (fun w => w + 1) ws.
Proof.
  intros Hl Hfit. apply list_eq. intros i.
  rewrite !list_lookup_fmap.
  destruct (texts !! i) as [s|] eqn:Es.
  - destruct (lookup_lt_is_Some_2 ws i) as [w Ew].
    { rewrite <- Hl. eapply lookup_lt_Some, Es. }
    rewrite (cells_lookup _ _ _ _ Es), Ew. cbn [fmap option_fmap option_map].
    destruct (rjust_succ (at_ ws i) s (Hfit _ _ Es)) as [-> L].
    f_equal. rewrite <- (at_lookup _ _ _ Ew).
    unfold len in *. simpl length. lia.
  - assert (length texts <= i)%nat by (apply lookup_ge_None, Es).
    rewrite (proj2 (lookup_ge_None ws i)) by lia.
    rewrite (proj2 (lookup_ge_None (cells ws texts) i)); [reflexivity|].
    unfold cells, enumerate.
    rewrite length_map, length_zip_with, length_seq. lia.
Qed.

(** X11. The table lines up: in every turn after a run from the start,
    the cells of the labels and the cells of the values have, column by
    column, the same length, the width of the column plus one. *)
Theorem header_and_row_align
  (heads : list bytes) (ts : list turn) (st : loop_state) (out : bytes)
  (t : turn) (st' : loop_state) (out' : bytes) :
  Forall (fun t => length (vals t) = length heads) ts ->
  watch_run heads (watch_init heads) ts = Some (st, out) ->
  length (vals t) = length heads ->
  watch_turn heads st t = Some (st', out') ->
  map len (cells (widths st') heads) = map (fun w => w + 1) (widths st')
  /\ map len (cells (widths st') (vals t))
     = map (fun w => w + 1) (widths st').
Proof.
  intros Hall Hrun Ht Hturn.
  assert (L0 : length (widths (watch_init heads)) = length heads)
    by apply length_map.
  destruct (watch_run_widths heads ts (watch_init heads) st out) as [L A];
    [rewrite L0; exact Hall|exact Hrun|].
  apply watch_turn_inv in Hturn as [W _].
  assert (L' : length (widths st') = length heads).
  { rewrite W, measure_length; congruence. }
  assert (Hat : forall i, (i < length heads)%nat ->
            at_ (widths st') i
            = Z.max (at_ (widths st) i) (len (nth i (vals t) []))).
  { intros i Hi. rewrite W. apply measure_at; lia. }
  split; apply cells_lengths; try congruence.
  - intros i s Hs.
    assert (Hi : (i < length heads)%nat) by (eapply lookup_lt_Some, Hs).
    rewrite (Hat i Hi), A by lia.
    assert (A0 : at_ (widths (watch_init heads)) i = len s).
    { apply at_lookup. simpl. rewrite list_lookup_fmap, Hs. reflexivity. }
    rewrite A0.
    pose proof (fold_max_le (map len (column i ts)) (len s)). lia.
  - intros i s Hs.
    assert (Hi : (i < length heads)%nat).
    { rewrite <- Ht. eapply lookup_lt_Some, Hs. }
    rewrite (Hat i Hi), (nth_lookup_Some _ _ _ _ Hs). lia.
Qed.

(** *** When the header is written *)

Lemma watch_run_snoc heads st ts t :
  watch_run heads st (ts ++ [t])
  = match watch_run heads st ts with
    | None => None
    | Some (st1, out1) =>
        match watch_turn heads st1 t with
        | None => None
        | Some (st2, out2) => Some (st2, out1 ++ out2)
        end
    end.
Proof.
  revert st. induction ts as [|t0 ts IH]; intros st; simpl.
  - destruct (watch_turn heads st t) as [[st2 out2]|]; [|reflexivity].
    rewrite app_nil_r. reflexivity.
  - destruct (watch_turn heads st t0) as [[st0 out0]|]; [|reflexivity].
    rewrite IH. destruct (watch_run heads st0 ts) as [[st1 out1]|];
      [|reflexivity].
    destruct (watch_turn heads st1 t) as [[st2 out2]|]; [|reflexivity].
    rewrite app_assoc. reflexivity.
Qed.

(** X12. With a terminal that keeps its size, of a height other than 2,
    no turn divides by zero; the loop has counted its turns, and the next
    turn writes the header exactly when the number of turns so far is a
    multiple of the height minus two (so the first turn always does). *)
Theorem header_every_screenful
  (heads : list bytes) (W H : Z) (ts : list turn) (t : turn) :
  H <> 2 ->
  Forall (fun t => TERM_WIDTH t = W /\ TERM_HEIGHT t = H) ts ->
  TERM_WIDTH t = W /\ TERM_HEIGHT t = H ->
  exists st out,
    watch_run heads (watch_init heads) ts = Some (st, out)
    /\ cnt st = len ts
    /\ header_due st t = Some (bool_decide (len ts mod (H - 2) = 0)).
Proof.
  intros HH Hall [HtW HtH].
  assert (R : exists st out,
            watch_run heads (watch_init heads) ts = Some (st, out)
            /\ cnt st = len ts
            /\ (ts <> [] -> term_width st = W)).
  { induction ts as [|t1 ts IH] using rev_ind.
    - exists (watch_init heads), []. repeat split. congruence.
    - apply Forall_app in Hall as [Hall Ht1].
      apply Forall_inv in Ht1 as [H1W H1H].
      destruct (IH Hall) as (st & out & R & C & _).
      rewrite watch_run_snoc, R. unfold watch_turn, header_due.
      rewrite H1W, H1H.
      assert (Hc : len (ts ++ [t1]) = len ts + 1)
        by (unfold len; rewrite length_app; simpl; lia).
      destruct (decide (term_width st <> W)) as [Hne|He].
      + eexists _, _. split; [reflexivity|]. cbn [cnt term_width].
        split; [lia|reflexivity].
      + assert (Hw : term_width st = W)
          by (destruct (decide (term_width st = W)); tauto).
        destruct (decide (H - 2 = 0)); [lia|].
        destruct (bool_decide (cnt st mod (H - 2) = 0));
          eexists _, _; (split; [reflexivity|]); cbn [cnt term_width];
          (split; [lia|intros _; first [reflexivity|exact Hw]]). }
  destruct R as (st & out & R & C & T). exists st, out.
  split; [exact R|]. split; [exact C|].
  unfold header_due. rewrite HtW, HtH, C.
  destruct (decide (H - 2 = 0)); [lia|].
  destruct (decide (term_width st <> W)) as [Hne|_]; [|reflexivity].
  destruct ts as [|t0 ts]; [|exfalso; apply Hne, T; discriminate].
  change (len (@nil turn)) with 0. rewrite Zmod_0_l. reflexivity.
Qed.

(** X13. A terminal two rows high stops the loop: with that size kept,
    the modulo of the header test divides by zero in the second turn at
    the latest, and no run of two turns or more succeeds. *)
Theorem two_rows_crash
  (heads : list bytes) (W : Z) (t1 t2 : turn) (ts : list turn) :
  TERM_WIDTH t1 = W /\ TERM_HEIGHT t1 = 2 ->
  TERM_WIDTH t2 = W /\ TERM_HEIGHT t2 = 2 ->
  watch_run heads (watch_init heads) (t1 :: t2 :: ts) = None.
Proof.
  intros [W1 H1] [W2 H2]. cbn [watch_run].
  unfold watch_turn at 1, header_due. rewrite W1, H1.
  cbn [watch_init term_width cnt widths].
  destruct (decide (0 <> W)) as [Hne|_].
  - unfold watch_turn at 1, header_due. cbn [term_width cnt].
    rewrite W2, H2.
    destruct (decide (W <> W)); [congruence|].
    destruct (decide (2 - 2 = 0)); [reflexivity|lia].
  - destruct (decide (2 - 2 = 0)); [reflexivity|lia].
Qed.

End WatchMore.

(** ** Properties of the hex dump *)

Module XxdFacts.
Import Xxd.

Lemma isprint_bool c : isprint c = (32 <=? ord c) && (ord c <=? 126).
Proof. destruct c; reflexivity. Qed.

(** X14. [isprint] holds exactly of the bytes 32 to 126: the visible
    characters of ASCII and the space, no control character and no byte
    above 126. *)
Theorem isprint_range (c : byte) : isprint c = true <-> 32 <= ord c <= 126.
Proof. rewrite isprint_bool. lia. Qed.

Lemma enumerate_snoc {A} (l : list A) (x : A) :
  Watch.enumerate (l ++ [x]) = Watch.enumerate l ++ [(length l, x)].
Proof.
  unfold Watch.enumerate. rewrite length_app, seq_app. simpl.
  rewrite zip_with_app by (rewrite length_seq; reflexivity).
  reflexivity.
Qed.

Lemma after_snoc s c : after (s ++ [c]) = body (after s) (length s, c).
Proof. unfold after. rewrite enumerate_snoc, fold_left_app. reflexivity. Qed.

Lemma after_idx s c : idx (after (s ++ [c])) = Some (len s).
Proof.
  rewrite after_snoc. unfold body.
  destruct (decide (Z.of_nat (length s) mod 16 = 0)); reflexivity.
Qed.

Lemma xxd_raises_inv (s : bytes) (e : exn) : xxd s = inr e -> s = [].
Proof.
  destruct s as [|c s _] using rev_ind; [reflexivity|].
  unfold xxd. fold (after (s ++ [c])). rewrite after_idx. discriminate.
Qed.

(** X15. [xxd] returns for every string but the empty one, on which the
    test after the loop reads [idx] before any turn has bound it. *)
Theorem xxd_raises_iff_empty (s : bytes) :
  xxd s = inr UnboundLocalError <-> s = [].
Proof.
  split; [apply xxd_raises_inv|]. intros ->. reflexivity.
Qed.


(** *** What the dump is made of *)

Lemma plain_harmless l : Forall plain l -> Forall harmless l.
Proof.
  intros H. eapply Forall_impl; [exact H|]. intros b Hb. right. exact Hb.
Qed.

Lemma newlines_app a b : newlines (a ++ b) = newlines a + newlines b.
Proof. unfold newlines, len. rewrite filter_app, length_app. lia. Qed.

Lemma newlines_plain l : Forall plain l -> newlines l = 0.
Proof.
  induction 1 as [|b l Hb _ IH]; [reflexivity|].
  unfold newlines in *. rewrite filter_cons.
  destruct (decide (b = x0a)) as [->|_]; [|exact IH].
  unfold plain in Hb. vm_compute in Hb. destruct Hb as [Hb _]. congruence.
Qed.

Lemma hex_byte_plain d : 0 <= d < 16 -> plain (hex_byte d).
Proof.
  intros H.
  assert (E : d = 0 \/ d = 1 \/ d = 2 \/ d = 3 \/ d = 4 \/ d = 5 \/ d = 6
              \/ d = 7 \/ d = 8 \/ d = 9 \/ d = 10 \/ d = 11 \/ d = 12
              \/ d = 13 \/ d = 14 \/ d = 15) by lia.
  repeat (destruct E as [->|E]; [vm_compute; split; discriminate|]).
  subst d. vm_compute; split; discriminate.
Qed.

Lemma xdigits_plain n acc :
  0 <= n -> Forall plain acc -> Forall plain (xdigits n acc).
Proof.
  funelim (xdigits n acc); intros Hn Hacc.
  - constructor; [apply hex_byte_plain; lia|exact Hacc].
  - apply H; [apply Z.div_pos; lia|].
    constructor; [apply hex_byte_plain, Z.mod_pos_bound; lia|exact Hacc].
Qed.

Lemma fmt_0x_plain w n : 0 <= n -> Forall plain (fmt_0x w n).
Proof.
  intros Hn. unfold fmt_0x. apply Forall_app. split.
  - apply Forall_replicate. vm_compute. split; discriminate.
  - apply xdigits_plain; [exact Hn|constructor].
Qed.

Lemma text_plain c : plain (if isprint c then c else "."%byte).
Proof.
  destruct (isprint c) eqn:E.
  - rewrite isprint_bool in E. unfold plain. lia.
  - vm_compute. split; discriminate.
Qed.

Lemma spaces_plain n : Forall plain (spaces n).
Proof. apply Forall_replicate. vm_compute. split; discriminate. Qed.

(** The state of the loop after a string: what it has written is
    harmless, the text column is plain, and one line was closed for every
    sixteen bytes before the last. *)
Lemma after_invariant (s : bytes) :
  Forall harmless (sio (after s))
  /\ Forall plain (pr (after s))
  /\ newlines (sio (after s))
     = if decide (s = []) then 0 else (len s - 1) / 16.
Proof.
  induction s as [|c s IH] using rev_ind.
  - repeat split; constructor.
  - destruct IH as (Hs & Hp & Hn). rewrite after_snoc. unfold body.
    assert (Hlen : len (s ++ [c]) = len s + 1)
      by (unfold len; rewrite length_app; simpl; lia).
    assert (H0 : 0 <= len s) by (unfold len; lia).
    fold (len s).
    pose proof (fmt_0x_plain 7 (len s) H0) as F7.
    assert (F2 : Forall plain (fmt_0x 2 (ord c)))
      by (apply fmt_0x_plain; unfold ord; lia).
    pose proof (text_plain c) as Ft.
    destruct (decide (s ++ [c] = [])) as [E|_];
      [destruct s; discriminate E|].
    rewrite Hlen. replace (len s + 1 - 1) with (len s) by lia.
    assert (Hsp : Forall plain (lit " ")) by apply (spaces_plain 1).
    assert (Hsp2 : Forall plain (lit "  ")) by apply (spaces_plain 2).
    assert (Hcol : Forall plain (lit ":")).
    { change (lit ":") with [":"%byte].
      constructor; [vm_compute; split; discriminate|constructor]. }
    assert (Hnl : Forall harmless Codec.NL)
      by (constructor; [left; reflexivity|constructor]).
    pose proof (newlines_plain _ F7) as N7.
    pose proof (newlines_plain _ F2) as N2.
    pose proof (newlines_plain _ Hsp) as N1.
    pose proof (newlines_plain _ Hsp2) as N1'.
    pose proof (newlines_plain _ Hcol) as Nc.
    pose proof (newlines_plain _ Hp) as Np.
    assert (Nn : newlines Codec.NL = 1) by reflexivity.
    assert (Hz : s = [] <-> len s = 0).
    { unfold len. destruct s; simpl; split; intros; try reflexivity;
        try discriminate; lia. }
    destruct (decide (len s mod 16 = 0)) as [Em|Em];
      [destruct (decide (len s <> 0)) as [Ez|Ez]|];
      destruct (decide (len s mod 2 = 0));
      cbn [sio pr]; rewrite ?Forall_app, ?newlines_app;
      rewrite ?N7, ?N2, ?N1, ?N1', ?Nc, ?Np, ?Nn, ?Hn;
      (split; [repeat split; auto using plain_harmless|]);
      (split; [repeat split; auto; repeat constructor; exact Ft|]);
      destruct (decide (s = [])) as [Hs0|Hs0]; rewrite ?Hz in Hs0;
      Z.div_mod_to_equations; lia.
Qed.

Lemma xxd_nonempty (s : bytes) (out : bytes) :
  xxd s = inl out ->
  exists i, idx (after s) = Some i /\ i = len s - 1 /\ s <> []
    /\ out = (if decide (i mod 16 <> 0)
              then sio (after s) ++ spaces (2 * (15 - i mod 16))
                   ++ spaces ((15 - i mod 16) / 2) ++ lit "  " ++ pr (after s)
              else sio (after s)) ++ Codec.NL.
Proof.
  destruct s as [|c s _] using rev_ind; [discriminate|].
  unfold xxd. fold (after (s ++ [c])). rewrite after_idx.
  intros [= <-]. exists (len s). split; [reflexivity|].
  split; [unfold len; rewrite length_app; simpl; lia|].
  split; [destruct s; discriminate|reflexivity].
Qed.

(** X16. Whatever the bytes of the input, the dump holds nothing but
    newlines and the bytes 32 to 126: no control character of the input
    reaches the terminal. *)
Theorem xxd_output_is_harmless (s out : bytes) :
  xxd s = inl out -> Forall harmless out.
Proof.
  intros H. apply xxd_nonempty in H as (i & _ & _ & _ & ->).
  destruct (after_invariant s) as (Hs & Hp & _).
  apply Forall_app. split; [|constructor; [left; reflexivity|constructor]].
  destruct (decide (i mod 16 <> 0)); [|exact Hs].
  rewrite !Forall_app. repeat split; auto using plain_harmless, spaces_plain.
  apply plain_harmless, (spaces_plain 2).
Qed.

(** X17. One line for every sixteen bytes: the dump of a string of [n]
    bytes holds [n/16] newlines, rounded up. *)
Theorem xxd_line_count (s out : bytes) :
  xxd s = inl out -> newlines out = (len s + 15) / 16.
Proof.
  intros H. apply xxd_nonempty in H as (i & _ & Hi & Hne & ->).
  destruct (after_invariant s) as (_ & Hp & Hn).
  destruct (decide (s = [])); [contradiction|].
  rewrite newlines_app. change (newlines Codec.NL) with 1.
  assert (Hrest : newlines
            (if decide (i mod 16 <> 0)
             then sio (after s) ++ spaces (2 * (15 - i mod 16))
                  ++ spaces ((15 - i mod 16) / 2) ++ lit "  " ++ pr (after s)
             else sio (after s)) = newlines (sio (after s))).
  { destruct (decide (i mod 16 <> 0)); [|reflexivity].
    change (lit "  ") with (spaces 2).
    rewrite !newlines_app, !(newlines_plain _ (spaces_plain _)).
    rewrite (newlines_plain _ Hp). lia. }
  rewrite Hrest, Hn. Z.div_mod_to_equations. lia.
Qed.

(** X18. The text of a lone last byte is lost: when the input has one
    byte more than a multiple of sixteen, the last line is the offset,
    a space and the two hex digits of that byte, and ends there, without
    the text column that the other lines have. *)
Theorem xxd_lone_byte_has_no_text (s : bytes) (c : byte) :
  len s mod 16 = 0 ->
  exists pre,
    (pre = [] \/ last pre = Some x0a)
    /\ xxd (s ++ [c])
       = inl (pre ++ fmt_0x 7 (len s) ++ lit ": " ++ fmt_0x 2 (ord c)
                  ++ Codec.NL).
Proof.
  intros Hm. unfold xxd. fold (after (s ++ [c])). rewrite after_idx.
  destruct (decide (len s mod 16 <> 0)); [contradiction|].
  rewrite after_snoc. unfold body. fold (len s).
  destruct (decide (len s mod 16 = 0)); [|contradiction].
  assert (H2 : len s mod 2 = 0) by (Z.div_mod_to_equations; lia).
  destruct (decide (len s mod 2 = 0)); [|contradiction].
  cbn [sio].
  destruct (decide (len s <> 0)).
  - exists (sio (after s) ++ lit "  " ++ pr (after s) ++ Codec.NL).
    split.
    + right. rewrite !app_assoc. apply last_snoc.
    + rewrite <- !app_assoc. reflexivity.
  - exists (sio (after s)). split.
    + left. destruct s; [reflexivity|]. unfold len in *. simpl in *. lia.
    + rewrite <- !app_assoc. reflexivity.
Qed.

(** *** The layout *)

Lemma xdigits_small n acc : 0 <= n < 16 -> xdigits n acc = hex_byte n :: acc.
Proof.
  intros H. funelim (xdigits n acc); [reflexivity|lia].
Qed.

Lemma fmt_0x_2_length n : 0 <= n < 256 -> len (fmt_0x 2 n) = 2.
Proof.
  intros H. unfold fmt_0x.
  destruct (decide (n < 16)).
  - rewrite xdigits_small by lia. reflexivity.
  - assert (E : xdigits n [] = xdigits (n / 16) [hex_byte (n mod 16)]).
    { funelim (xdigits n []); [lia|reflexivity]. }
    rewrite E, xdigits_small by (Z.div_mod_to_equations; lia). reflexivity.
Qed.

Lemma ord_range c : 0 <= ord c < 256.
Proof. unfold ord. pose proof (Byte.to_N_bounded c). lia. Qed.

Lemma hexcol_length j chunk :
  len (hexcol j chunk)
  = 2 * len chunk + (len chunk + (if Nat.even j then 1 else 0)) / 2.
Proof.
  revert j. induction chunk as [|c chunk IH]; intros j.
  - destruct (Nat.even j); reflexivity.
  - cbn [hexcol]. unfold len in *. rewrite !length_app, !Nat2Z.inj_add.
    fold (len (fmt_0x 2 (ord c))). rewrite fmt_0x_2_length by apply ord_range.
    rewrite IH, Nat.even_succ, <- Nat.negb_even.
    destruct (Nat.even j); cbn [negb];
      try change (length (lit " ")) with 1%nat;
      cbn [length]; Z.div_mod_to_equations; lia.
Qed.

Lemma xxd_run s : xxd s = finish (run 0 s (Vars [] [] None)).
Proof. reflexivity. Qed.

Lemma run_app off a b v :
  run off (a ++ b) v = run (off + length a) b (run off a v).
Proof.
  unfold run. rewrite length_app, seq_app.
  rewrite zip_with_app by (rewrite length_seq; reflexivity).
  apply fold_left_app.
Qed.

Lemma even_of_nat off j :
  (off mod 16 = 0)%nat ->
  Z.of_nat (off + j) mod 2 = 0 <-> Nat.even j = true.
Proof.
  intros H. rewrite Nat.even_spec.
  apply Nat.Div0.mod_divides in H as [q ->].
  split.
  - intros E. exists (Z.to_nat (Z.of_nat j / 2)).
    Z.div_mod_to_equations. lia.
  - intros [k ->]. Z.div_mod_to_equations. lia.
Qed.

Lemma run_rest off chunk : forall j v,
  (off mod 16 = 0)%nat -> (1 <= j)%nat -> (j + length chunk <= 16)%nat ->
  run (off + j) chunk v
  = Vars (sio v ++ hexcol j chunk) (pr v ++ text chunk)
         (match chunk with
          | [] => idx v
          | _ => Some (Z.of_nat (off + j + length chunk) - 1)
          end).
Proof.
  induction chunk as [|c chunk IH]; intros j v Hoff Hj Hlen.
  - unfold run. simpl. rewrite !app_nil_r. destruct v; reflexivity.
  - change (run (off + j) (c :: chunk) v)
      with (run (S (off + j)) chunk (body v ((off + j)%nat, c))).
    replace (S (off + j)) with (off + S j)%nat by lia.
    simpl in Hlen. rewrite IH by lia.
    unfold body.
    destruct (decide (Z.of_nat (off + j) mod 16 = 0)) as [E|_].
    { apply Nat.Div0.mod_divides in Hoff as [q ->].
      Z.div_mod_to_equations. lia. }
    cbn [hexcol text map sio pr idx].
    pose proof (even_of_nat off j Hoff) as Hev.
    f_equal.
    + destruct (decide (Z.of_nat (off + j) mod 2 = 0)) as [E|E].
      * apply Hev in E. rewrite E, <- !app_assoc. reflexivity.
      * destruct (Nat.even j); [destruct E; apply Hev; reflexivity|].
        rewrite <- !app_assoc. reflexivity.
    + rewrite <- app_assoc. reflexivity.
    + destruct chunk; f_equal; cbn [length]; lia.
Qed.

Lemma run_line off c chunk v :
  (off mod 16 = 0)%nat -> (length (c :: chunk) <= 16)%nat ->
  run off (c :: chunk) v
  = Vars (closed off v ++ fmt_0x 7 (Z.of_nat off) ++ lit ":"
            ++ hexcol 0 (c :: chunk))
         (text (c :: chunk))
         (Some (Z.of_nat (off + length chunk))).
Proof.
  intros Hoff Hlen. simpl in Hlen.
  change (run off (c :: chunk) v)
    with (run (S off) chunk (body v (off, c))).
  replace (S off) with (off + 1)%nat by lia.
  rewrite run_rest by (assumption || lia).
  unfold body, closed.
  assert (E16 : Z.of_nat off mod 16 = 0).
  { apply Nat.Div0.mod_divides in Hoff as [q ->].
    Z.div_mod_to_equations. lia. }
  assert (E2 : Z.of_nat off mod 2 = 0) by (Z.div_mod_to_equations; lia).
  destruct (decide (Z.of_nat off mod 16 = 0)); [|contradiction].
  destruct (decide (Z.of_nat off mod 2 = 0)); [|contradiction].
  cbn [hexcol text map sio pr idx Nat.even].
  f_equal.
  - rewrite <- !app_assoc. reflexivity.
  - destruct chunk; f_equal; cbn [length]; lia.
Qed.

Lemma spaces_add a b :
  0 <= a -> 0 <= b -> spaces a ++ spaces b = spaces (a + b).
Proof.
  intros Ha Hb. unfold spaces. rewrite Z2Nat.inj_add by lia.
  symmetry. apply replicate_add.
Qed.

Lemma finish_layout n : forall s off v,
  (length s <= n)%nat -> s <> [] -> (off mod 16 = 0)%nat ->
  finish (run off s v) = inl (closed off v ++ layout (Z.of_nat off) s).
Proof.
  induction n as [|n IH]; intros s off v Hn Hs Hoff.
  { destruct s; [contradiction|simpl in Hn; lia]. }
  simp layout. destruct (decide (length s <= 16)%nat) as [Hle|Hgt]; simpl.
  - destruct s as [|c chunk]; [contradiction|].
    rewrite run_line by assumption.
    unfold finish. cbn [idx sio pr].
    simpl in Hle.
    assert (Em : Z.of_nat (off + length chunk) mod 16
                 = Z.of_nat (length chunk)).
    { apply Nat.Div0.mod_divides in Hoff as [q ->].
      Z.div_mod_to_equations. lia. }
    rewrite Em.
    destruct (decide (length (c :: chunk) = 1%nat)) as [E1|E1].
    + destruct chunk; [|discriminate E1].
      destruct (decide (Z.of_nat (length (@nil byte)) <> 0)) as [E|_];
        [destruct E; reflexivity|].
      unfold lone_row. rewrite <- !app_assoc. reflexivity.
    + destruct (decide (Z.of_nat (length chunk) <> 0)) as [_|E];
        [|destruct chunk; [destruct E1; reflexivity|simpl in E; lia]].
      unfold row, ljust. rewrite <- !app_assoc. do 5 f_equal.
      rewrite !app_assoc. do 3 f_equal.
      rewrite spaces_add by (Z.div_mod_to_equations; lia).
      f_equal. rewrite hexcol_length. unfold len. cbn [length Nat.even].
      Z.div_mod_to_equations. lia.
  - rewrite <- (take_drop 16 s) at 1. rewrite run_app.
    assert (Ht : length (take 16 s) = 16%nat) by (rewrite length_take; lia).
    rewrite Ht.
    destruct (take 16 s) as [|c chunk] eqn:Et; [discriminate Ht|].
    rewrite run_line by (simpl in *; lia).
    rewrite IH.
    + f_equal. unfold closed at 1. cbn [sio pr].
      destruct (decide (Z.of_nat (off + 16) <> 0)) as [_|E]; [|lia].
      replace (Z.of_nat (off + 16)) with (Z.of_nat off + 16) by lia.
      unfold row, ljust. rewrite hexcol_length.
      unfold len. rewrite Ht. change (spaces _) with (@nil byte).
      rewrite <- !app_assoc. reflexivity.
    + rewrite length_drop. lia.
    + intros E. apply (f_equal length) in E. rewrite length_drop in E.
      simpl in E. lia.
    + rewrite <- Nat.Div0.add_mod_idemp_l, Hoff. reflexivity.
Qed.

(** X19. The dump, line by line: for a string that is not empty, [xxd]
    returns its lines of sixteen bytes, each the offset of its first byte
    in seven hex digits, a colon, the bytes in hex by pairs, filled up
    with spaces to forty characters, two spaces, and the text of the
    bytes with a dot for each that [isprint] refuses; but a last line of
    one byte ends after its hex digits. *)
Theorem xxd_layout (s : bytes) : s <> [] -> xxd s = inl (layout 0 s).
Proof.
  intros Hs. rewrite xxd_run.
  rewrite (finish_layout (length s) s 0 _ (le_n _) Hs eq_refl).
  reflexivity.
Qed.

End XxdFacts.

(** ** Properties of the commands *)

Module ToolFacts.
Import Tool.

Lemma partition_spec sep s :
  let '(before, found, after) := partition sep s in
  s = before ++ found ++ after /\ ~ In sep before
  /\ (found = [sep] \/ (found = [] /\ after = [] /\ ~ In sep s)).
Proof.
  induction s as [|b s IH]; simpl.
  - repeat split; auto.
  - destruct (decide (b = sep)) as [->|Hb].
    + repeat split; auto.
    + destruct (partition sep s) as [[before found] after].
      destruct IH as (E & Hn & Hf). repeat split.
      * simpl. congruence.
      * intros [H|H]; auto.
      * destruct Hf as [->|(-> & -> & Hs)]; [auto|right].
        repeat split; auto. intros [H|H]; auto.
Qed.

Lemma partition_found sep s :
  In sep s -> (partition sep s).1.2 = [sep].
Proof.
  intros Hin. pose proof (partition_spec sep s) as H.
  destruct (partition sep s) as [[before found] after]. simpl.
  destruct H as (_ & _ & [->|(_ & _ & Hn)]); [reflexivity|contradiction].
Qed.

Lemma partition_not_found sep s :
  ~ In sep s -> partition sep s = (s, [], []).
Proof.
  intros Hn. pose proof (partition_spec sep s) as H.
  destruct (partition sep s) as [[before found] after].
  destruct H as (E & _ & [->|(-> & -> & _)]).
  - exfalso. apply Hn. rewrite E. apply in_or_app. right. left. reflexivity.
  - rewrite !app_nil_r in E. congruence.
Qed.

Section Facts.
Context {Db : Type} (open_db : option bytes -> Db).

#[local] Abbreviation entry_of := (Tool.entry_of open_db).

Lemma db_map_body_ok (v : db_vars) (arg : bytes) :
  In "="%byte arg -> db_map v !! name_of arg = None ->
  db_map_body open_db v arg
  = inl (DbVars (<[name_of arg := (open_db (name_of arg), path_of arg)]>
                   (db_map v))
                (opened v ++ [name_of arg])).
Proof.
  intros Heq Hfree. unfold db_map_body, name_of, path_of in *.
  pose proof (partition_found _ _ Heq) as Hf.
  destruct (partition "="%byte arg) as [[dbname sep] path]. simpl in *.
  subst sep. destruct (decide (["="%byte] = [])); [discriminate|].
  destruct (decide (is_Some _)) as [[x Hx]|_]; [congruence|reflexivity].
Qed.

Lemma db_map_loop_ok (args : list bytes) :
  Forall (In "="%byte) args -> NoDup (map name_of args) ->
  db_map_loop open_db (DbVars ∅ []) args
  = inl (DbVars (list_to_map (map entry_of args)) (map name_of args)).
Proof.
  assert (G : forall (todo done : list bytes),
    Forall (In "="%byte) todo -> NoDup (map name_of (done ++ todo)) ->
    db_map_loop open_db
      (DbVars (list_to_map (map entry_of done)) (map name_of done)) todo
    = inl (DbVars (list_to_map (map entry_of (done ++ todo)))
                  (map name_of (done ++ todo)))).
  { induction todo as [|a todo IH]; intros done Hall Hnd.
    - rewrite app_nil_r. reflexivity.
    - inversion Hall as [|? ? Ha Hrest]; subst.
      assert (Hfresh : name_of a ∉ map name_of done).
      { rewrite map_app in Hnd. apply NoDup_app in Hnd as (_ & Hd & _).
        intros Hin. apply (Hd _ Hin). left. }
      cbn [db_map_loop]. rewrite db_map_body_ok; cbn [db_map opened]; auto.
      + specialize (IH (done ++ [a]) Hrest).
        rewrite <- app_assoc in IH. cbn [app] in IH.
        rewrite <- (IH Hnd). f_equal. f_equal.
        * rewrite map_app. cbn [map].
          change (entry_of a)
            with (name_of a, (open_db (name_of a), path_of a)).
          rewrite list_to_map_snoc; [reflexivity|].
          rewrite <- list_fmap_compose. exact Hfresh.
        * rewrite map_app. reflexivity.
      + apply not_elem_of_list_to_map_1.
        rewrite <- list_fmap_compose. exact Hfresh. }
  intros Hall Hnd. exact (G args [] Hall Hnd).
Qed.

(** X20. Well-formed arguments: when every argument holds an ['='] and
    no database is named twice ([:main:] standing for the main database),
    [db_map_from_args] returns a dictionary with one entry for each
    argument, under the name before its first ['='], holding the handle of
    that database and the path after that ['=']; the databases were opened
    in the order of the arguments. *)
Theorem db_map_of_good_arguments (args : list bytes) :
  args <> [] ->
  Forall (In "="%byte) args -> NoDup (map name_of args) ->
  db_map_from_args open_db args
  = inl (DbVars (list_to_map (map entry_of args)) (map name_of args)).
Proof.
  intros Hne Hall Hnd. unfold db_map_from_args.
  rewrite db_map_loop_ok by assumption. cbn [db_map].
  destruct args as [|a args]; [contradiction|].
  cbn [map list_to_map foldr].
  destruct (decide _) as [E|_]; [|reflexivity].
  exfalso. revert E. apply insert_non_empty.
Qed.

Lemma db_map_loop_app (v : db_vars) (l1 l2 : list bytes) :
  db_map_loop open_db v (l1 ++ l2)
  = match db_map_loop open_db v l1 with
    | inl v' => db_map_loop open_db v' l2
    | inr e => inr e
    end.
Proof.
  revert v. induction l1 as [|a l1 IH]; intros v; [reflexivity|].
  cbn [app db_map_loop]. destruct (db_map_body open_db v a); auto.
Qed.

(** X21. The first bad argument decides: after arguments that are well
    formed, an argument without ['='], or one that names a database
    already named, makes [db_map_from_args] die with that argument, the
    missing ['='] being reported first; the databases of the arguments
    before it have been opened by then, its own and those after it have
    not. *)
Theorem db_map_first_bad_argument (good : list bytes) (bad : bytes)
  (rest : list bytes) :
  Forall (In "="%byte) good -> NoDup (map name_of good) ->
  ~ In "="%byte bad \/ name_of bad ∈ map name_of good ->
  db_map_from_args open_db (good ++ bad :: rest)
  = inr (Died (if decide (In "="%byte bad)
               then specified_twice else missing_equals) (Some bad),
         DbVars (list_to_map (map entry_of good)) (map name_of good)).
Proof.
  intros Hall Hnd Hbad. unfold db_map_from_args.
  rewrite db_map_loop_app, db_map_loop_ok by assumption.
  cbn [db_map_loop]. unfold db_map_body. cbn [db_map].
  destruct (decide (In "="%byte bad)) as [Heq|Hne].
  - destruct Hbad as [?|Hdup]; [contradiction|].
    pose proof (partition_found _ _ Heq) as Hf. unfold name_of in Hdup.
    destruct (partition "="%byte bad) as [[dbname sep] path]. simpl in *.
    subst sep. destruct (decide (["="%byte] = [])); [discriminate|].
    destruct (decide (is_Some _)) as [_|Hn]; [reflexivity|].
    exfalso. apply Hn. apply not_eq_None_Some. intros Hnone.
    apply not_elem_of_list_to_map_2 in Hnone.
    rewrite <- list_fmap_compose in Hnone. exact (Hnone Hdup).
  - rewrite (partition_not_found _ _ Hne).
    destruct (decide ([] = [])); [reflexivity|congruence].
Qed.

(** *** [cmd_drop] *)

Lemma drop_loop_from (pre suf : list bytes) :
  drop_loop (pre ++ suf)
    (zip (seq (length pre) (length suf))
         (map (fun a => open_db (Some a)) suf))
  = (flat_map (fun a => [Dropping a; Dropped (open_db (Some a))])
       (names_before MAIN suf),
     if decide (In MAIN suf)
     then Some (Died cannot_drop_main None) else None).
Proof.
  revert pre. induction suf as [|a suf IH]; intros pre.
  - reflexivity.
  - cbn [length seq map zip_with drop_loop].
    assert (Hn : nth (length pre) (pre ++ a :: suf) [] = a).
    { rewrite app_nth2, Nat.sub_diag by lia. reflexivity. }
    rewrite Hn. cbn [names_before].
    destruct (decide (a = MAIN)) as [->|Ha].
    + destruct (decide (In MAIN (MAIN :: suf))) as [_|Hn'];
        [reflexivity|exfalso; apply Hn'; left; reflexivity].
    + specialize (IH (pre ++ [a])).
      rewrite <- app_assoc, length_app, Nat.add_1_r in IH. cbn [app] in IH.
      rewrite IH. cbn [flat_map app].
      destruct (decide (In MAIN suf)) as [Hin|Hin];
        destruct (decide (In MAIN (a :: suf))) as [Hin'|Hin'];
        try reflexivity; exfalso.
      * apply Hin'. right. exact Hin.
      * destruct Hin' as [E|E]; [congruence|contradiction].
Qed.

(** X22. [cmd_drop] opens every database named before it drops any;
    then it drops, in order, the databases named before the first
    [:main:], each in a transaction of its own, and dies at [:main:]
    without dropping it or any database named after it.  Without
    [:main:] among the names it drops them all and returns. *)
Theorem cmd_drop_stops_at_main (args : list bytes) :
  args <> [] ->
  cmd_drop open_db args
  = (map Opened args
     ++ flat_map (fun a => [Dropping a; Dropped (open_db (Some a))])
          (names_before MAIN args),
     if decide (In MAIN args)
     then Some (Died cannot_drop_main None) else None).
Proof.
  intros Hne. unfold cmd_drop, Watch.enumerate.
  destruct (decide (args = [])); [contradiction|].
  rewrite length_map.
  pose proof (drop_loop_from [] args) as H. cbn [app length] in H.
  rewrite H. reflexivity.
Qed.

End Facts.

(** *** [cmd_warm] *)

Lemma warm_loop_spec (size last_offset pos : Z) :
  0 <= pos <= size ->
  match warm_loop size last_offset pos with
  | Some p =>
      last_offset <= p <= size
      /\ (p = pos \/ p < last_offset + bufsize)
  | None => size < last_offset
  end.
Proof.
  funelim (warm_loop size last_offset pos); intros Hp.
  - lia.
  - match goal with
    | IH : _ -> match warm_loop _ _ _ with _ => _ end |- _ =>
        specialize (IH ltac:(unfold bufsize; lia));
        destruct (warm_loop size last_offset
                    (pos + Z.min bufsize (size - pos))) as [p|];
        [|exact IH]; destruct IH as [Hb Hc]
    end.
    split; [exact Hb|]. right. unfold bufsize in *. lia.
  - lia.
Qed.

(** X23. [cmd_warm] returns only on a data file that reaches the last
    page: on a file of at least [psize * last_pgno] bytes it returns after
    reading up to that offset and less than one buffer beyond it; on a
    shorter file the loop never ends, each read at the end of the file
    leaving the position where it is. *)
Theorem cmd_warm_ends_iff_file_long_enough (psize last_pgno size : Z) :
  0 <= size ->
  match cmd_warm psize last_pgno size with
  | Some p =>
      psize * last_pgno <= p <= size
      /\ (p = 0 \/ p < psize * last_pgno + bufsize)
  | None => size < psize * last_pgno
  end.
Proof. intros Hs. apply warm_loop_spec. lia. Qed.

(** *** [cmd_get] *)

Lemma get_loop_raises (x h : bool) (get : bytes -> option bytes)
  (args : list bytes) :
  snd (get_loop x h get args)
  = if x && some_value_empty get args
    then Some (XxdError Xxd.UnboundLocalError) else None.
Proof.
  unfold some_value_empty.
  induction args as [|a args IH]; cbn [get_loop existsb].
  - rewrite andb_false_r. reflexivity.
  - destruct (get a) as [value|] eqn:Ea.
    + destruct x; cbn [andb] in *.
      * destruct (Xxd.xxd value) as [dump|e] eqn:Ex.
        -- destruct (get_loop true h get args) as [ls e]. simpl in *.
           rewrite IH. rewrite bool_decide_eq_false_2; [reflexivity|].
           intros [= ->]. discriminate Ex.
        -- destruct e. apply XxdFacts.xxd_raises_inv in Ex as ->.
           rewrite bool_decide_eq_true_2 by reflexivity. reflexivity.
      * destruct (get_loop false h get args) as [ls e]. exact IH.
    + destruct (get_loop x h get args) as [ls e]. simpl in *. exact IH.
Qed.

(** X24. [cmd_get] fails on an empty value under [--xxd], and on nothing
    else: it raises, with the [UnboundLocalError] of [xxd], exactly when
    the dump is asked for and one of the keys holds the empty string;
    missing keys are reported and never end the command. *)
Theorem cmd_get_raises_iff_empty_value_dumped
  (xxd_option : bool) (get : bytes -> option bytes) (args : list bytes) :
  snd (cmd_get xxd_option get args)
  = if xxd_option && some_value_empty get args
    then Some (XxdError Xxd.UnboundLocalError) else None.
Proof. apply get_loop_raises. Qed.

End ToolFacts.

(** ** Properties of dump and restore as commands *)

Module BackupFacts.
Import Codec CodecFacts Backup.

Section Facts.
Context {Db Txn : Type}.
Variable cursor : Db -> list record.
Variable put : Db -> bytes -> bytes -> Txn -> Txn.

#[local] Abbreviation item := (@Backup.item Db).

Lemma restore_of_dump (db : Db) (recs : list record) (t : Txn) :
  restore_cursor_from_fp (put db) t (dump_cursor_to_fp recs [])
  = Ok (len recs + 1) (World [] (put_all (put db) recs t)).
Proof.
  unfold restore_cursor_from_fp, dump_cursor_to_fp, write.
  rewrite (restore_loop_framing (put db) _ recs NL) by apply framing_dump.
  rewrite <- (app_nil_r NL) at 1. rewrite restore_loop_end.
  reflexivity.
Qed.

Lemma dump_untouched (items : list item) (fs : gmap bytes bytes) (p : bytes) :
  p ∉ map path_of_item items ->
  fold_left (dump_item cursor) items fs !! p = fs !! p.
Proof.
  revert fs. induction items as [|[n [db q]] items IH]; intros fs Hp;
    [reflexivity|].
  cbn [fold_left]. rewrite IH.
  - unfold dump_item. apply lookup_insert_ne. intros ->. apply Hp. left.
  - intros Hin. apply Hp. right. exact Hin.
Qed.

Lemma dumped_file
  (before after : list item) (name : option bytes) (db : Db) (path : bytes)
  (fs : gmap bytes bytes) :
  path ∉ map path_of_item after ->
  fold_left (dump_item cursor) (before ++ (name, (db, path)) :: after) fs
    !! path
  = Some (dump_cursor_to_fp (cursor db) []).
Proof.
  intros Hp. rewrite fold_left_app. cbn [fold_left].
  rewrite dump_untouched by exact Hp.
  unfold dump_item. apply lookup_insert_eq.
Qed.

(** X25. The last dump of a path is the one that stays: after [cmd_dump]
    a path holds the dump of the last database that was given with it;
    what an earlier database wrote to the same path is gone, and nothing
    reports it. *)
Theorem cmd_dump_last_wins
  (before after : list item) (name : option bytes) (db : Db) (path : bytes)
  (fs : gmap bytes bytes) :
  path ∉ map path_of_item after ->
  (cmd_dump cursor (before ++ (name, (db, path)) :: after) fs).1 !! path
  = Some (dump_cursor_to_fp (cursor db) []).
Proof.
  intros Hp. unfold cmd_dump. cbn [fst]. apply dumped_file, Hp.
Qed.

Lemma restore_items_dumped (items : list item) (fs : gmap bytes bytes)
  (t : Txn) :
  (forall n db p, (n, (db, p)) ∈ items ->
     fs !! p = Some (dump_cursor_to_fp (cursor db) [])) ->
  restore_items put items fs t
  = (flat_map (fun it => [Restoring (path_of_item it);
                          Loaded (len (cursor it.2.1) + 1) (path_of_item it)])
              items,
     Done (put_items cursor put items t)).
Proof.
  revert t. induction items as [|[n [db p]] items IH]; intros t Hfs;
    [reflexivity|].
  cbn [restore_items]. rewrite (Hfs n db p) by left.
  rewrite restore_of_dump. cbn [txn].
  rewrite IH by (intros; apply (Hfs n0); right; assumption).
  reflexivity.
Qed.

(** X26. Dump, then restore: when every database is dumped to a path of
    its own, restoring from the files that [cmd_dump] wrote, in any order
    of the same items, returns; it has put, for each item in turn, the
    records that the cursor of its database yielded, in order, and has
    reported for each one more record than it put. *)
Theorem dump_then_restore
  (items items' : list item) (fs : gmap bytes bytes) (t : Txn) :
  NoDup (map path_of_item items) -> items' ≡ₚ items ->
  cmd_restore put items' (cmd_dump cursor items fs).1 t
  = (flat_map (fun it => [Restoring (path_of_item it);
                          Loaded (len (cursor it.2.1) + 1) (path_of_item it)])
              items',
     Done (put_items cursor put items' t)).
Proof.
  intros Hnd Hperm. apply restore_items_dumped.
  intros n db p Hin. rewrite Hperm in Hin.
  apply list_elem_of_split in Hin as (before & after & ->).
  unfold cmd_dump. cbn [fst]. apply dumped_file.
  rewrite map_app in Hnd. cbn [map] in Hnd.
  apply NoDup_app in Hnd as (_ & _ & Hnd). apply NoDup_cons in Hnd as [H _].
  exact H.
Qed.

End Facts.
End BackupFacts.

(** ** Properties of [main] *)

Module MainFacts.
Import Backup.

Lemma on_sigwinch_cases query g :
  match query with
  | Some _ => exists g', Term._on_sigwinch query g = (g', None)
  | None => Term._on_sigwinch query g = (g, Some Term.TypeError)
  end.
Proof. destruct query as [[w h]|]; [eexists|]; reflexivity. Qed.

(** X27. [main] calls a command exactly when there is a first argument
    that names one, [--env] is given and the environment opens, the
    database of [--db], if given, opens, and the query of the terminal
    size succeeds: with an output that is not a terminal no command is
    ever run. *)
Theorem main_runs_command_iff (args : list bytes) (o : options)
  (env_opens db_opens : bool) (query : option (Z * Z)) (g : Term.globals)
  (command : bytes) (rest : list bytes) :
  In (Run command rest) (main args o env_opens db_opens query g).1.1
  <-> args = command :: rest
      /\ is_Some (given (env o))
      /\ env_opens = true
      /\ (is_Some (given (db o)) -> db_opens = true)
      /\ is_Some query
      /\ command ∈ commands.
Proof.
  unfold main.
  destruct args as [|c r].
  { simpl. split; [intros []|intros [[=] _]]. }
  destruct (given (env o)) as [path|].
  2:{ simpl. split; [intros []|]. intros (_ & [x [=]] & _). }
  destruct env_opens; cbn [negb].
  2:{ simpl. split; [intros []|]. intros (_ & _ & [=] & _). }
  assert (N : forall evs : list main_event,
    Forall (fun e => forall c a, e <> Run c a) evs ->
    ~ In (Run command rest) evs).
  { intros evs H Hin. rewrite List.Forall_forall in H.
    exact (H _ Hin _ _ eq_refl). }
  assert (B : forall evs : list main_event,
    Forall (fun e => forall c a, e <> Run c a) evs ->
    In (Run command rest)
       (match Term._on_sigwinch query g with
        | (g', Some e) => (evs ++ [SignalHandler], g', Some (Tool.TermError e))
        | (g', None) =>
            if decide (c ∈ commands)
            then ((evs ++ [SignalHandler]) ++ [Run c r], g', None)
            else (evs ++ [SignalHandler], g',
                  Some (Tool.Died Tool.no_such_command (Some c)))
        end).1.1
    <-> c :: r = command :: rest /\ is_Some query /\ command ∈ commands).
  { intros evs Hevs.
    assert (Hb : ~ In (Run command rest) (evs ++ [SignalHandler])).
    { apply N, Forall_app. split; [exact Hevs|].
      constructor; [discriminate|constructor]. }
    pose proof (on_sigwinch_cases query g) as Hq.
    destruct query as [q|].
    - destruct Hq as [g' ->].
      destruct (decide (c ∈ commands)) as [Hc|Hc]; cbn [fst].
      + rewrite in_app_iff. simpl. split.
        * intros [H|[[= -> ->]|[]]]; [contradiction|]. eauto.
        * intros ([= -> ->] & _). right. left. reflexivity.
      + split; [contradiction|]. intros ([= -> ->] & _ & H). contradiction.
    - rewrite Hq. cbn [fst]. split; [contradiction|].
      intros (_ & [x [=]] & _). }
  destruct (given (db o)) as [name|].
  - destruct db_opens.
    + rewrite (B [LmdbOpen path; OpenDb name])
        by (repeat constructor; discriminate).
      split.
      * intros (? & ? & ?). eauto 10.
      * intros (? & _ & _ & _ & ? & ?). eauto.
    + cbn [fst]. split.
      * simpl. intros [[=]|[]].
      * intros (_ & _ & _ & H & _). discriminate H. eauto.
  - rewrite (B [LmdbOpen path]) by (repeat constructor; discriminate).
    split.
    + intros (? & ? & ?). repeat split; eauto. intros [x [=]].
    + intros (? & _ & _ & _ & ? & ?). eauto.
Qed.

End MainFacts.

(** ** Instances of the further properties *)

Module CodecInstances.
Import Py Codec CodecFacts CodecMore.

Ltac absent := unfold COMMA, COLON; simpl; intuition discriminate.

(** The frame of the record [("a", "b")] in front of [rest]. *)
Ltac one_frame rest :=
  apply (framing_cons _ (lit "a", lit "b") rest); [|apply framing_nil];
  exists (lit "1"), (lit "1");
  split; [reflexivity|]; split; [absent|]; split; [absent|];
  split; reflexivity.

(** One record and the end of the input. *)
Lemma no_end_marker_instance :
  restore_cursor_from_fp log_put []
    (fold_left dump_record [(lit "a", lit "b")] [] ++ [])
  = Raise (Died bad_plus 2) (World [] [(lit "a", lit "b")]).
Proof.
  refine (missing_end_marker_bad_plus log_put [] _ [(lit "a", lit "b")]
            [] _ _ _).
  - one_frame (@nil byte).
  - discriminate.
  - discriminate.
Defined.

(** One record, then a whole frame that an [X] follows. *)
Lemma bad_line_ending_instance :
  restore_cursor_from_fp log_put []
    (fold_left dump_record [(lit "a", lit "b")] [] ++ lit "+1,2:k->vwX")
  = Raise (Died bad_line_ending 2) (World [] [(lit "a", lit "b")]).
Proof.
  refine (bad_line_ending_is_not_put log_put [] _ [(lit "a", lit "b")]
            (lit "1") (lit "2") (lit "k") (lit "vw") (lit "X")
            _ _ _ _ _ _).
  - one_frame (lit "+1,2:k->vwX").
  - absent.
  - absent.
  - reflexivity.
  - reflexivity.
  - discriminate.
Defined.

(** The bytes [+1,1:a->b], a newline and the end marker are the dump of
    one sequence only. *)
Lemma one_record_dump_instance :
  [(lit "a", lit "b")] = [(lit "a", lit "b")].
Proof.
  refine (dump_is_injective [(lit "a", lit "b")] [(lit "a", lit "b")] [] _).
  reflexivity.
Defined.

End CodecInstances.

Module WatchInstances.
Import Watch WatchFacts WatchMore.

(** Three calls with [window=1]. *)
Lemma window_one_instance :
  snd (ticks (Opts 1 1) [1; 2; 3]%Q [])
  = [Return 0%Q; Return 0%Q; Return 0%Q].
Proof.
  refine (short_window_always_zero (Opts 1 1) [1; 2; 3]%Q _).
  reflexivity.
Defined.

(** Two columns, a first turn that widens the second, and a turn after
    it. *)
Lemma aligned_instance :
  map len (cells [5; 7] [lit "Depth"; lit "Leaf"]) = [6; 8]
  /\ map len (cells [5; 7] [lit "12"; lit "3"]) = [6; 8].
Proof.
  refine (header_and_row_align [lit "Depth"; lit "Leaf"]
            [Turn [lit "3"; lit "1234567"] 80 24]
            (LoopState [5; 7] 80 1) _
            (Turn [lit "12"; lit "3"] 80 24)
            (LoopState [5; 7] 80 2) _ _ _ _ _).
  - repeat constructor.
  - vm_compute. reflexivity.
  - reflexivity.
  - vm_compute. reflexivity.
Defined.

(** A terminal of 80 columns and 24 rows, after one turn. *)
Lemma screenful_instance :
  exists st out,
    watch_run [lit "Depth"] (watch_init [lit "Depth"])
      [Turn [lit "3"] 80 24] = Some (st, out)
    /\ cnt st = 1
    /\ header_due st (Turn [lit "4"] 80 24) = Some false.
Proof.
  refine (header_every_screenful [lit "Depth"] 80 24
            [Turn [lit "3"] 80 24] (Turn [lit "4"] 80 24) _ _ _).
  - discriminate.
  - repeat constructor.
  - split; reflexivity.
Defined.

(** A terminal of 80 columns and 2 rows. *)
Lemma two_rows_instance :
  watch_run [lit "Depth"] (watch_init [lit "Depth"])
    [Turn [lit "3"] 80 2; Turn [lit "4"] 80 2] = None.
Proof.
  refine (two_rows_crash [lit "Depth"] 80
            (Turn [lit "3"] 80 2) (Turn [lit "4"] 80 2) [] _ _).
  - split; reflexivity.
  - split; reflexivity.
Defined.

End WatchInstances.

Module XxdInstances.
Import Xxd XxdFacts.

(** The dump of eight bytes, three of which are not printable. *)
Lemma harmless_instance :
  Forall harmless
    (lit "0000000: 6865 6c6c 6f00 0aff" ++ spaces 22 ++ lit "hello..."
     ++ Codec.NL).
Proof.
  refine (xxd_output_is_harmless (lit "hello" ++ [x00; x0a; xff]) _ _).
  reflexivity.
Defined.

(** The dump of seventeen bytes has two lines. *)
Lemma two_lines_instance :
  newlines
    (lit "0000000: 3031 3233 3435 3637 3839 6162 6364 6566"
     ++ lit "  0123456789abcdef" ++ Codec.NL ++ lit "0000010: 67"
     ++ Codec.NL)
  = 2.
Proof.
  refine (xxd_line_count (lit "0123456789abcdefg") _ _).
  reflexivity.
Defined.

(** The seventeenth byte. *)
Lemma lone_byte_instance :
  exists pre,
    (pre = [] \/ last pre = Some x0a)
    /\ xxd (lit "0123456789abcdef" ++ ["g"%byte])
       = inl (pre ++ lit "0000010: 67" ++ Codec.NL).
Proof.
  refine (xxd_lone_byte_has_no_text (lit "0123456789abcdef") "g"%byte _).
  reflexivity.
Defined.

(** The lines of eight bytes. *)
Lemma layout_instance :
  xxd (lit "hello" ++ [x00; x0a; xff])
  = inl (row 0 (lit "hello" ++ [x00; x0a; xff])).
Proof.
  refine (xxd_layout (lit "hello" ++ [x00; x0a; xff]) _).
  discriminate.
Defined.

End XxdInstances.

Module ToolInstances.
Import Tool ToolFacts.

(** The handle of a database is its name here. *)
#[local] Abbreviation handle := (fun name : option bytes => name).

(** [a=x :main:=y] *)
Lemma good_arguments_instance :
  db_map_from_args handle [lit "a=x"; lit ":main:=y"]
  = inl (DbVars
           (list_to_map [(Some (lit "a"), (Some (lit "a"), lit "x"));
                         (None, (None, lit "y"))])
           [Some (lit "a"); None]).
Proof.
  refine (db_map_of_good_arguments handle [lit "a=x"; lit ":main:=y"]
            _ _ _).
  - discriminate.
  - repeat (constructor; [simpl; auto 10|]). constructor.
  - refine (bool_decide_unpack _ _). vm_compute. exact I.
Defined.

(** [a=x b c=z]: the second argument has no ['=']. *)
Lemma bad_argument_instance :
  db_map_from_args handle [lit "a=x"; lit "b"; lit "c=z"]
  = inr (Died missing_equals (Some (lit "b")),
         DbVars (list_to_map [(Some (lit "a"), (Some (lit "a"), lit "x"))])
                [Some (lit "a")]).
Proof.
  refine (db_map_first_bad_argument handle [lit "a=x"] (lit "b")
            [lit "c=z"] _ _ _).
  - repeat (constructor; [simpl; auto 10|]). constructor.
  - refine (bool_decide_unpack _ _). vm_compute. exact I.
  - left. simpl. intuition discriminate.
Defined.

(** [drop a :main: b] *)
Lemma drop_instance :
  cmd_drop handle [lit "a"; MAIN; lit "b"]
  = ([Opened (lit "a"); Opened MAIN; Opened (lit "b");
      Dropping (lit "a"); Dropped (Some (lit "a"))],
     Some (Died cannot_drop_main None)).
Proof.
  refine (cmd_drop_stops_at_main handle [lit "a"; MAIN; lit "b"] _).
  discriminate.
Defined.

(** Ten pages of 4096 bytes in a file of 50000 bytes: two reads. *)
Lemma warm_instance :
  4096 * 10 <= 50000 <= 50000
  /\ (50000 = 0 \/ 50000 < 4096 * 10 + bufsize).
Proof.
  refine (cmd_warm_ends_iff_file_long_enough 4096 10 50000 _).
  discriminate.
Defined.

End ToolInstances.

Module BackupInstances.
Import Codec Backup BackupFacts.

(** A database is its records here, and a transaction the records put,
    whatever the database. *)
#[local] Abbreviation contents := (fun db : list record => db).
#[local] Abbreviation put_any := (fun _ : list record => log_put).

(** Two databases dumped to the path [f]: the second stays. *)
Lemma last_wins_instance :
  (cmd_dump contents
     [(Some (lit "a"), ([(lit "k", lit "v")], lit "f"));
      (Some (lit "b"), ([], lit "f"))] ∅).1 !! lit "f"
  = Some NL.
Proof.
  refine (cmd_dump_last_wins contents
            [(Some (lit "a"), ([(lit "k", lit "v")], lit "f"))] []
            (Some (lit "b")) [] (lit "f") ∅ _).
  intros H. inversion H.
Defined.

(** Two databases dumped to two paths, and restored in the other
    order. *)
Lemma dump_restore_instance :
  cmd_restore put_any
    [(None, ([(lit "x", lit "y")], lit "g"));
     (Some (lit "a"), ([(lit "k", lit "v")], lit "f"))]
    (cmd_dump contents
       [(Some (lit "a"), ([(lit "k", lit "v")], lit "f"));
        (None, ([(lit "x", lit "y")], lit "g"))] ∅).1
    []
  = ([Restoring (lit "g"); Loaded 2 (lit "g");
      Restoring (lit "f"); Loaded 2 (lit "f")],
     Done [(lit "x", lit "y"); (lit "k", lit "v")]).
Proof.
  refine (dump_then_restore contents put_any
            [(Some (lit "a"), ([(lit "k", lit "v")], lit "f"));
             (None, ([(lit "x", lit "y")], lit "g"))]
            [(None, ([(lit "x", lit "y")], lit "g"));
             (Some (lit "a"), ([(lit "k", lit "v")], lit "f"))]
            ∅ [] _ _).
  - refine (bool_decide_unpack _ _). vm_compute. exact I.
  - apply perm_swap.
Defined.

End BackupInstances.

(** ** The reader with the C long *)

Module BoundedFacts.
Import Py PyFacts Codec CodecFacts.
Import Bounded(Ended, OverflowError).

Section Facts.
Context {Txn : Type} (put : bytes -> bytes -> Txn -> Txn).

(** A C long has 32 bits at least. *)
Variable LONG_MAX : Z.
Hypothesis long_32 : 2 ^ 31 - 1 <= LONG_MAX.

#[local] Abbreviation world := (@Codec.world Txn).
#[local] Abbreviation fits := (Bounded.fits LONG_MAX).

Lemma fits_range n : - LONG_MAX - 1 <= n <= LONG_MAX -> fits n = true.
Proof. unfold Bounded.fits. lia. Qed.

Lemma fits_length {A} (s : list A) : len s <= LONG_MAX -> fits (len s) = true.
Proof. intros H. apply fits_range. unfold len in *. lia. Qed.

(** Stepping through a turn. *)
Lemma step_read_1 {B} (b : byte) (rest : bytes) (t : Txn)
  (k : bytes -> Bounded.M B) :
  Bounded.bind (Bounded.read LONG_MAX 1) k (World (b :: rest) t)
  = k [b] (World rest t).
Proof.
  unfold Bounded.bind, Bounded.read. rewrite (fits_range 1) by lia.
  reflexivity.
Qed.

Lemma step_read_until {B} sep (ks rest : bytes) (t : Txn)
  (k : bytes -> Bounded.M B) :
  ~ In sep ks ->
  Bounded.bind (Bounded.read_until LONG_MAX sep) k
    (World (ks ++ sep :: rest) t)
  = k ks (World rest t).
Proof.
  intros H. unfold Bounded.bind, Bounded.read_until, Codec.read_until.
  rewrite (fits_range 1) by lia. cbn [fp txn].
  rewrite scan_until_app by assumption. reflexivity.
Qed.

Lemma step_int {B} (s : bytes) (z : Z) (k : Z -> Bounded.M B)
  (w : world) :
  int10 s = Some z -> Bounded.bind (Bounded.int s) k w = k z w.
Proof.
  intros H. unfold Bounded.bind, Bounded.int, Bounded.lift, Codec.int.
  rewrite H. reflexivity.
Qed.

(** *** Reading with counts that fit *)

Lemma step_read_len {B} (a rest : bytes) (t : Txn)
  (k : bytes -> Bounded.M B) :
  fits (len a) = true ->
  Bounded.bind (Bounded.read LONG_MAX (len a)) k (World (a ++ rest) t)
  = k a (World rest t).
Proof.
  intros F. unfold Bounded.bind, Bounded.read, Codec.read, len in *.
  rewrite F. cbn [fp txn].
  destruct (Z.ltb_spec (Z.of_nat (length a)) 0) as [H|_]; [lia|].
  rewrite Nat2Z.id, take_app_length, drop_app_length. reflexivity.
Qed.

Lemma step_read_2 {B} (b c : byte) (rest : bytes) (t : Txn)
  (k : bytes -> Bounded.M B) :
  Bounded.bind (Bounded.read LONG_MAX 2) k (World (b :: c :: rest) t)
  = k [b; c] (World rest t).
Proof.
  unfold Bounded.bind, Bounded.read. rewrite (fits_range 2) by lia.
  reflexivity.
Qed.

(** A read that asks for at least what is left, or for a negative
    number of bytes, gets what is left. *)
Lemma step_read_rest {B} (n : Z) (s : bytes) (t : Txn)
  (k : bytes -> Bounded.M B) :
  fits n = true -> n < 0 \/ len s <= n ->
  Bounded.bind (Bounded.read LONG_MAX n) k (World s t) = k s (World [] t).
Proof.
  intros F H. unfold Bounded.bind, Bounded.read, Codec.read, len in *.
  rewrite F. cbn [fp txn].
  destruct (Z.ltb_spec n 0) as [|Hn]; [reflexivity|].
  rewrite take_ge, drop_ge by lia. reflexivity.
Qed.

(** A count that does not fit. *)
Lemma step_read_overflow {B} (n : Z) (k : bytes -> Bounded.M B)
  (w : world) :
  fits n = false ->
  Bounded.bind (Bounded.read LONG_MAX n) k w = OverflowError w.
Proof.
  intros F. unfold Bounded.bind, Bounded.read. rewrite F. reflexivity.
Qed.

(** Settling a test of the loop that the context decides. *)
Ltac settled H :=
  first [ discriminate | contradiction | exfalso; unfold len in *; lia
        | exfalso; apply H; unfold PLUS, ARROW, NL;
          first [reflexivity|discriminate] ].

Ltac test_no :=
  match goal with
  | |- context [decide ?P] =>
      let H := fresh "D" in destruct (decide P) as [H|H]; [settled H|]
  end.

Ltac test_yes :=
  match goal with
  | |- context [decide ?P] =>
      let H := fresh "D" in destruct (decide P) as [H|H]; [|settled H]
  end.

(** The header of a frame, read. *)
Ltac read_header Hk Hd Ik Id :=
  unfold Bounded.iteration; cbn [PLUS ARROW NL app];
  rewrite step_read_1; do 2 test_no;
  unfold Bounded.bind at 1, Bounded.try_ValueError;
  rewrite step_read_until, (step_int _ _ _ _ Ik) by exact Hk;
  rewrite step_read_until, (step_int _ _ _ _ Id) by exact Hd;
  unfold Bounded.ret at 1, Bounded.lift, Codec.ret.

Lemma framed_lengths s r s' :
  framed s r s' -> len r.1 + len r.2 + len s' < len s.
Proof.
  intros (ks & ds & -> & _). unfold len, PLUS, ARROW, NL.
  rewrite !length_app. simpl length. lia.
Qed.

(** A turn on an accepted frame that is no longer than a C long can
    count. *)
Lemma turn_framed s r s' (t : Txn) n :
  framed s r s' -> len s <= LONG_MAX ->
  Bounded.iteration put LONG_MAX n (World s t)
  = Ended (Ok Continue (World s' (put r.1 r.2 t))).
Proof.
  intros Fr Hs. pose proof (framed_lengths _ _ _ Fr) as Hl.
  destruct r as [key data].
  destruct Fr as (ks & ds & -> & Hk & Hd & Ik & Id). cbn [fst snd] in *.
  assert (Fk : fits (len key) = true)
    by (apply fits_length; unfold len in *; lia).
  assert (Fd : fits (len data) = true)
    by (apply fits_length; unfold len in *; lia).
  read_header Hk Hd Ik Id.
  rewrite step_read_len, step_read_2 by exact Fk. test_no.
  rewrite step_read_len by exact Fd. test_no.
  rewrite step_read_1. test_no.
  reflexivity.
Qed.

(** The loop runs through accepted frames as the reader without the
    bound does. *)
Lemma loop_framing s recs s' (t : Txn) n :
  framing s recs s' -> len s <= LONG_MAX ->
  len s' <= len s
  /\ Bounded.restore_loop put LONG_MAX n (World s t)
     = Bounded.restore_loop put LONG_MAX (n + len recs)
         (World s' (put_all put recs t)).
Proof.
  intros F. revert t n.
  induction F as [s|s r s1 recs s' Fr _ IH]; intros t n Hs.
  - split; [lia|]. change (len (@nil record)) with 0.
    rewrite Z.add_0_r. reflexivity.
  - pose proof (framed_lengths _ _ _ Fr) as Hl.
    assert (H1 : len s1 <= LONG_MAX) by (unfold len in *; lia).
    destruct (IH (put r.1 r.2 t) (n + 1) H1) as [Hle E].
    split; [unfold len in *; lia|].
    rewrite Bounded.restore_loop_turn, (turn_framed _ _ _ _ _ Fr Hs), E.
    f_equal. unfold len. simpl length. lia.
Qed.

(** Every run that raises no [OverflowError] is a run of the reader
    without the bound. *)
Lemma restore_loop_agrees (k : nat) : forall n (w : world) r,
  (length (fp w) < k)%nat ->
  Bounded.restore_loop put LONG_MAX n w = Ended r ->
  restore_loop put n w = r.
Proof.
  induction k as [|k IH]; intros n w r Hk; [lia|].
  rewrite Bounded.restore_loop_turn, restore_loop_step.
  destruct (Bounded.iteration put LONG_MAX (n + 1) w)
    as [[[|] w1|e w1|w1]|w1] eqn:E; try discriminate;
    pose proof (Bounded.agree_iteration put LONG_MAX _ _ _ E) as E';
    rewrite E'; try (intros [= <-]; reflexivity).
  apply IH. apply Bounded.turn_consumes in E. lia.
Qed.

(** *** The records cut short, and the lengths below zero *)



(** X6. A negative key length: [read] with a negative count that is a C
    long takes all that is left, so the separator is missing; the call
    dies with "bad or missing separator" and the input is used up.  A
    count below the least C long makes [fp.read] raise
    [OverflowError]. *)
Theorem negative_key_length_bad_separator
  (t : Txn) (input : bytes) (recs : list record)
  (ks ds rest : bytes) (klen dlen : Z) :
  framing input recs (PLUS ++ ks ++ [COMMA] ++ ds ++ [COLON] ++ rest) ->
  ~ In COMMA ks -> ~ In COLON ds ->
  int10 ks = Some klen -> int10 ds = Some dlen ->
  klen < 0 ->
  len input <= LONG_MAX ->
  Bounded.restore_cursor_from_fp put LONG_MAX t input
  = if fits klen
    then Ended (Raise (Died bad_separator (len recs + 1))
                      (World [] (put_all put recs t)))
    else OverflowError (World rest (put_all put recs t)).
Proof.
  intros F Hk Hd Ik Id Hneg Hin. unfold Bounded.restore_cursor_from_fp.
  destruct (loop_framing _ _ _ t 0 F Hin) as [Hle ->].
  rewrite Bounded.restore_loop_turn, Z.add_0_l.
  read_header Hk Hd Ik Id.
  destruct (fits klen) eqn:Fk.
  - rewrite step_read_rest by first [exact Fk | left; exact Hneg].
    rewrite step_read_rest
      by first [apply fits_range; lia | right; unfold len; simpl; lia].
    test_yes. reflexivity.
  - rewrite step_read_overflow by exact Fk. reflexivity.
Qed.

(** X7. A negative value length, after a whole key and separator: when it
    is a C long the value read is all that is left, its length cannot
    match, and the call dies with "short key or data"; below the least C
    long, [fp.read] raises [OverflowError]. *)
Theorem negative_value_length_short_record
  (t : Txn) (input : bytes) (recs : list record)
  (ks ds key rest : bytes) (dlen : Z) :
  framing input recs
    (PLUS ++ ks ++ [COMMA] ++ ds ++ [COLON] ++ key ++ ARROW ++ rest) ->
  ~ In COMMA ks -> ~ In COLON ds ->
  int10 ks = Some (len key) -> int10 ds = Some dlen ->
  dlen < 0 ->
  len input <= LONG_MAX ->
  Bounded.restore_cursor_from_fp put LONG_MAX t input
  = if fits dlen
    then Ended (Raise (Died short_record (len recs + 1))
                      (World [] (put_all put recs t)))
    else OverflowError (World rest (put_all put recs t)).
Proof.
  intros F Hk Hd Ik Id Hneg Hin. unfold Bounded.restore_cursor_from_fp.
  destruct (loop_framing _ _ _ t 0 F Hin) as [Hle ->].
  rewrite Bounded.restore_loop_turn, Z.add_0_l.
  assert (Fk : fits (len key) = true).
  { apply fits_length. revert Hle Hin. unfold len, PLUS, ARROW.
    rewrite !length_app. simpl length. lia. }
  read_header Hk Hd Ik Id.
  rewrite step_read_len, step_read_2 by exact Fk. test_no.
  destruct (fits dlen) eqn:Fd.
  - rewrite step_read_rest by first [exact Fd | left; exact Hneg].
    test_yes. reflexivity.
  - rewrite step_read_overflow by exact Fd. reflexivity.
Qed.

End Facts.
End BoundedFacts.

(** ** The sampler in floating point *)

Module SamplerFacts.
Import PrimFloat.
Import Watch Sampler.

Lemma for_each_ext {A B} (f g : A -> result B) (l : list A) :
  (forall a, In a l -> f a = g a) -> for_each f l = for_each g l.
Proof.
  induction l as [|a l IH]; intros H; [reflexivity|].
  cbn [for_each]. rewrite (H a) by (left; reflexivity).
  rewrite IH by (intros; apply H; right; assumption). reflexivity.
Qed.

Lemma for_each_map {A B C} (f : B -> result C) (g : A -> B) (l : list A) :
  for_each f (map g l) = for_each (fun a => f (g a)) l.
Proof.
  induction l as [|a l IH]; [reflexivity|].
  cbn [map for_each]. rewrite IH. reflexivity.
Qed.

(** [delta] gives the consecutive differences, and raises what they
    raise. *)
Lemma delta_is_differences (h : list num) : delta h = differences h.
Proof.
  unfold delta. induction h as [|a [|b h] IH]; [reflexivity..|].
  replace (length (a :: b :: h) - 1)%nat with (S (length (b :: h) - 1))
    by (simpl; lia).
  cbn [seq for_each]. change (differences (a :: b :: h))
    with (d <- sub b a ;; ds <- differences (b :: h) ;; ret (d :: ds)).
  cbn [nth Nat.sub]. rewrite <- IH, <- seq_shift, for_each_map.
  rewrite (for_each_ext
             (fun i => sub (nth (S i) (a :: b :: h) (I 0))
                           (nth (S i - 1) (a :: b :: h) (I 0)))
             (fun i => sub (nth i (b :: h) (I 0))
                           (nth (i - 1) (b :: h) (I 0)))); [reflexivity|].
  intros i Hi. apply in_seq in Hi.
  destruct i as [|i]; [lia|]. cbn [nth Nat.sub]. rewrite Nat.sub_0_r.
  reflexivity.
Qed.

Lemma differences_count (h : list num) (d : list num) :
  differences h = inl d -> len d = Z.max 0 (len h - 1).
Proof.
  revert d. induction h as [|a [|b h] IH]; intros d.
  - intros [= <-]. reflexivity.
  - intros [= <-]. reflexivity.
  - change (differences (a :: b :: h))
      with (x <- sub b a ;; ds <- differences (b :: h) ;; ret (x :: ds)).
    destruct (sub b a) as [x|e]; [|discriminate]. cbn [bind].
    destruct (differences (b :: h)) as [ds|e]; [|discriminate].
    intros [= <-]. specialize (IH ds eq_refl).
    unfold len in *. simpl length in *. lia.
Qed.

(** What the closure returns is the rate of the specification on the
    history it retains. *)
Lemma windowfunc_rate (o : opts) (x : num) (h : list num) :
  let kept := if decide (len (h ++ [x]) > window o)
              then tail (h ++ [x]) else h ++ [x] in
  windowfunc o x h = (kept, rate (interval o) kept).
Proof.
  intros kept. unfold windowfunc, rate. fold kept.
  destruct (decide (len kept <= 1)) as [|Hl]; [reflexivity|].
  f_equal. rewrite delta_is_differences.
  destruct (differences kept) as [d|e] eqn:E; [|reflexivity].
  cbn [bind]. unfold mean. rewrite (differences_count _ _ E).
  rewrite Z.max_r by lia. 
  destruct (sum d) as [s|e]; [|reflexivity]. cbn [bind].
  destruct (float_of (len kept - 1)) as [k|e]; [|reflexivity].
  reflexivity.
Qed.

(** *** Integer samples *)

Lemma differences_ints (h : list Z) :
  differences (map I h) = inl (map I (gaps h)).
Proof.
  induction h as [|a [|b h] IH]; [reflexivity..|].
  change (differences (map I (a :: b :: h)))
    with (d <- sub (I b) (I a) ;; ds <- differences (map I (b :: h)) ;;
          ret (d :: ds)).
  rewrite IH. reflexivity.
Qed.

Lemma sum_from_ints (l : list Z) (a : Z) :
  sum_from (I a) (map I l) = inl (I (fold_left Z.add l a)).
Proof.
  revert a. induction l as [|x l IH]; intros a; [reflexivity|].
  cbn [sum_from map add bind ret fold_left]. apply IH.
Qed.

Lemma total_from (l : list Z) (a : Z) : fold_left Z.add l a = a + total l.
Proof.
  unfold total. revert a. induction l as [|x l IH]; intros a;
    cbn [fold_left].
  - lia.
  - rewrite (IH (a + x)), (IH (0 + x)). lia.
Qed.

(** The gaps add up to the last entry minus the first. *)
Lemma total_gaps (a z : Z) (h : list Z) :
  last (a :: h) = Some z -> total (gaps (a :: h)) = z - a.
Proof.
  revert a. induction h as [|b h IH]; intros a.
  - intros [= <-]. unfold total. simpl. lia.
  - rewrite last_cons_cons. intros L.
    change (gaps (a :: b :: h)) with ((b - a) :: gaps (b :: h)).
    unfold total. cbn [fold_left]. rewrite total_from, (IH b L). lia.
Qed.

Lemma gaps_length (h : list Z) : len (gaps h) = Z.max 0 (len h - 1).
Proof.
  induction h as [|a [|b h] IH]; [reflexivity..|].
  change (gaps (a :: b :: h)) with ((b - a) :: gaps (b :: h)).
  unfold len in *. simpl length in *. lia.
Qed.

(** The rate of integers: one exact difference, two quotients. *)
Lemma rate_ints (i : Z) (oldest newest : Z) (h : list Z) :
  2 <= len h -> head h = Some oldest -> last h = Some newest ->
  rate i (map I h)
  = (k <- float_of (len h - 1) ;;
     s <- float_of (newest - oldest) ;;
     m <- float_div s k ;;
     d <- float_of i ;;
     q <- float_div m d ;;
     ret (F q)).
Proof.
  intros Hl Hh Hz. unfold rate, len in *. rewrite length_map.
  destruct (decide (Z.of_nat (length h) <= 1)); [lia|].
  rewrite differences_ints. cbn [bind]. unfold mean, sum.
  rewrite sum_from_ints. cbn [bind]. fold (total (gaps h)).
  unfold len. rewrite length_map. fold (len (gaps h)).
  rewrite gaps_length. unfold len. rewrite Z.max_r by lia.
  destruct h as [|a h]; [discriminate|]. injection Hh as ->.
  rewrite (total_gaps _ _ _ Hz).
  destruct (float_of (Z.of_nat (length (oldest :: h)) - 1)) as [k|e];
    [|reflexivity].
  cbn [bind div to_float].
  destruct (float_of (newest - oldest)) as [s|e]; [|reflexivity].
  cbn [bind ret].
  destruct (float_div s k) as [m|e]; [|reflexivity].
  cbn [bind ret div to_float].
  destruct (float_of i) as [d|e]; [|reflexivity].
  cbn [bind ret]. destruct (float_div m d); reflexivity.
Qed.

(** C4, as the code has it.  The sampler with [window=10] and
    [interval=1], [func()] returning 10, 20, 40, 70: the four calls
    return 0, 10.0, 15.0 and 20.0.  In general a call returns the rate
    of the specification on the history it retains, in the arithmetic of
    Python: 0 for at most one entry, otherwise the sum of the
    consecutive differences divided by their number and then by the
    interval, the two quotients in binary64; or the exception that this
    arithmetic raises. *)
Theorem sampler_rates :
  ticks (Opts 10 1) [I 10; I 20; I 40; I 70] []
  = ([I 10; I 20; I 40; I 70],
     [inl (I 0); inl (F 10%float); inl (F 15%float);
      inl (F 20%float)])
  /\ forall (o : opts) (x : num) (h : list num),
       let kept := if decide (len (h ++ [x]) > window o)
                   then tail (h ++ [x]) else h ++ [x] in
       windowfunc o x h = (kept, rate (interval o) kept).
Proof.
  split; [vm_compute; reflexivity|exact windowfunc_rate].
Qed.

(** X9. On integer samples the rate is a slope between two samples:
    with at least two retained entries the call returns the new sample
    minus the oldest retained one, which is exact, divided in binary64
    by the number of steps between them and then by the interval; the
    samples in between do not count. *)
Theorem rate_is_slope_of_ends (o : opts) (x : Z) (h : list Z)
  (oldest : Z) :
  let kept := if decide (len (h ++ [x]) > window o)
              then tail (h ++ [x]) else h ++ [x] in
  2 <= len kept -> head kept = Some oldest ->
  windowfunc o (I x) (map I h)
  = (map I kept,
     k <- float_of (len kept - 1) ;;
     s <- float_of (x - oldest) ;;
     m <- float_div s k ;;
     d <- float_of (interval o) ;;
     q <- float_div m d ;;
     ret (F q)).
Proof.
  intros kept Hl Hh.
  assert (Hlast : last kept = Some x).
  { unfold kept in *. destruct (decide (len (h ++ [x]) > window o)).
    - destruct h as [|a h]; [unfold len in Hl; simpl in Hl; lia|].
      simpl. apply last_snoc.
    - apply last_snoc. }
  rewrite windowfunc_rate.
  assert (E : (if decide (len (map I h ++ [I x]) > window o)
               then tail (map I h ++ [I x]) else map I h ++ [I x])
              = map I kept).
  { unfold kept, len. change [I x] with (map I [x]).
    rewrite <- map_app, length_map.
    destruct (decide (Z.of_nat (length (h ++ [x])) > window o));
      [|reflexivity].
    destruct (h ++ [x]); reflexivity. }
  rewrite E, (rate_ints _ oldest x) by assumption. reflexivity.
Qed.

End SamplerFacts.

(** ** Instances on the machine *)

Module BoundedInstances.
Import Py Codec CodecFacts BoundedFacts.
Import Bounded(Ended, OverflowError).

Ltac absent := unfold COMMA, COLON; simpl; intuition discriminate.

(** The frame of the record [("a", "b")] in front of [rest]. *)
Ltac one_frame rest :=
  apply (framing_cons _ (lit "a", lit "b") rest); [|apply framing_nil];
  exists (lit "1"), (lit "1");
  split; [reflexivity|]; split; [absent|]; split; [absent|];
  split; reflexivity.




(** With a C long of 64 bits: one record, then a frame with the key
    length [-1]. *)
Lemma negative_key_length_instance :
  Bounded.restore_cursor_from_fp log_put (2 ^ 63 - 1) []
    (fold_left dump_record [(lit "a", lit "b")] [] ++ lit "+-1,2:k->vw")
  = Ended (Raise (Died bad_separator 2) (World [] [(lit "a", lit "b")])).
Proof.
  refine (negative_key_length_bad_separator log_put (2 ^ 63 - 1) _ [] _
            [(lit "a", lit "b")] (lit "-1") (lit "2") (lit "k->vw")
            (-1) 2 _ _ _ _ _ _ _).
  - discriminate.
  - one_frame (lit "+-1,2:k->vw").
  - absent.
  - absent.
  - reflexivity.
  - reflexivity.
  - reflexivity.
  - discriminate.
Defined.

(** With a C long of 64 bits: one record, then a frame with the value
    length [-1]. *)
Lemma negative_value_length_instance :
  Bounded.restore_cursor_from_fp log_put (2 ^ 63 - 1) []
    (fold_left dump_record [(lit "a", lit "b")] [] ++ lit "+1,-1:k->vw")
  = Ended (Raise (Died short_record 2) (World [] [(lit "a", lit "b")])).
Proof.
  refine (negative_value_length_short_record log_put (2 ^ 63 - 1) _ [] _
            [(lit "a", lit "b")] (lit "1") (lit "-1") (lit "k") (lit "vw")
            (-1) _ _ _ _ _ _ _).
  - discriminate.
  - one_frame (lit "+1,-1:k->vw").
  - absent.
  - absent.
  - reflexivity.
  - reflexivity.
  - reflexivity.
  - discriminate.
Defined.


End BoundedInstances.

Module SamplerInstances.
Import PrimFloat.
Import Watch Sampler SamplerFacts.

(** C4 as stated fails: with [interval=3] and the samples 0 and 1, the
    second call returns the binary64 nearest to a third, which is not a
    third. *)
Lemma a_third_is_rounded :
  ~ (forall (o : opts) (x : Z) (h : list Z),
       interval o <> 0 ->
       let kept := if decide (len (h ++ [x]) > window o)
                   then tail (h ++ [x]) else h ++ [x] in
       exists (r : num) (q : Q),
         windowfunc o (I x) (map I h) = (map I kept, inl r)
         /\ value r = Some q
         /\ (q == spec_rate (interval o) (map inject_Z kept))%Q).
Proof.
  intros H.
  destruct (H (Opts 10 3) 1 [0] ltac:(discriminate)) as (r & q & E & V & Q).
  vm_compute in E. injection E as <-.
  vm_compute in V. injection V as <-.
  vm_compute in Q. discriminate Q.
Qed.

(** The fourth call of a sampler with the samples 10, 20, 40, 70. *)
Lemma slope_instance :
  windowfunc (Opts 10 1) (I 70) [I 10; I 20; I 40]
  = ([I 10; I 20; I 40; I 70], inl (F 20%float)).
Proof.
  refine (rate_is_slope_of_ends (Opts 10 1) 70 [10; 20; 40] 10 _ _).
  - discriminate.
  - reflexivity.
Defined.

End SamplerInstances.
